(** * BusTub buffer pool: replacers and buffer pool manager

    A shallow embedding of [src/buffer/lru_replacer.cpp],
    [src/buffer/clock_replacer.cpp] and [src/buffer/buffer_pool_manager.cpp],
    followed by the properties of the buffer pool design that are checked
    against it.

    Conventions of the embedding.
    - [frame_id_t] is [nat]; the [-1] that [PickVictimFrame] returns for
      "no frame" and the [nullptr] of the page-returning operations are
      [None].
    - [page_id_t] is [Z].
    - The mutex of each object is held for the whole of every public
      operation, so each operation is one atomic state transformer.
    - A [std::list<frame_id_t>::iterator] is represented by the frame id
      stored in the node it designates, [None] standing for [end()].  A frame
      id is pushed on a replacer list only when it has no entry in
      [iter_map_], so the nodes of a list hold pairwise distinct ids (lemmas
      [LRUFacts.lru_wf_*] and [ClockFacts.clock_wf_*]) and an id names exactly
      one node.
      [iter_map_] itself is kept as its key set: the iterator stored under
      key [f] is the node holding [f]. *)

From stdpp Require Import base gmap list.
From Stdlib Require Import ZArith Lia Strings.Byte.

Open Scope Z_scope.

(** [frame_list_.erase(it)] for the iterator [it] of the node holding [f]. *)
Fixpoint erase (f : nat) (l : list nat) : list nat :=
  match l with
  | [] => []
  | x :: l' => if decide (x = f) then l' else x :: erase f l'
  end.

(** ** LRU replacer ([lru_replacer.cpp]) *)
Module LRU.

Record LRUReplacer := mk {
  frame_list_ : list nat;
  iter_map_ : gset nat
}.

(** [LRUReplacer::LRUReplacer]: both containers are cleared. *)
Definition new : LRUReplacer := mk [] ∅.

(** [LRUReplacer::Victim]: [None] is the [false] return (the out-parameter
    is then left untouched, only the local pointer is overwritten);
    [Some last_id] is [true] with [*frame_id = last_id]. *)
Definition Victim (r : LRUReplacer) : option nat * LRUReplacer :=
  match last (frame_list_ r) with
  | None => (None, r)
  | Some last_id =>
      (Some last_id,
       mk (removelast (frame_list_ r)) (iter_map_ r ∖ {[ last_id ]}))
  end.

(** [LRUReplacer::Pin]. *)
Definition Pin (r : LRUReplacer) (frame_id : nat) : LRUReplacer :=
  if decide (frame_id ∈ iter_map_ r) then
    mk (erase frame_id (frame_list_ r)) (iter_map_ r ∖ {[ frame_id ]})
  else r.

(** [LRUReplacer::Unpin]. *)
Definition Unpin (r : LRUReplacer) (frame_id : nat) : LRUReplacer :=
  if decide (frame_id ∈ iter_map_ r) then r
  else mk (frame_id :: frame_list_ r) ({[ frame_id ]} ∪ iter_map_ r).

(** [LRUReplacer::Size]. *)
Definition Size (r : LRUReplacer) : nat := length (frame_list_ r).

(** A run of [Unpin] calls, in the order of the list. *)
Definition unpins (r : LRUReplacer) (fs : list nat) : LRUReplacer :=
  foldl Unpin r fs.

(** [k] successive [Victim] calls: the results in call order, and the
    final replacer. *)
Fixpoint victims (k : nat) (r : LRUReplacer)
  : list (option nat) * LRUReplacer :=
  match k with
  | O => ([], r)
  | S k' =>
      let '(v, r1) := Victim r in
      let '(vs, r2) := victims k' r1 in
      (v :: vs, r2)
  end.

(** The keys of [iter_map_] are the ids on the list, each once. *)
Definition wf (r : LRUReplacer) : Prop :=
  NoDup (frame_list_ r) ∧ ∀ f, f ∈ iter_map_ r ↔ f ∈ frame_list_ r.

(** The replacers that public calls produce from a fresh one. *)
Inductive reachable : LRUReplacer → Prop :=
| reachable_new : reachable new
| reachable_Unpin r f : reachable r → reachable (Unpin r f)
| reachable_Pin r f : reachable r → reachable (Pin r f)
| reachable_Victim r : reachable r → reachable (Victim r).2.

End LRU.

(** ** CLOCK replacer ([clock_replacer.cpp]) *)
Module Clock.

Record ClockReplacer := mk {
  frame_list_ : list nat;
  ref_map_ : gmap nat bool;
  iter_map_ : gset nat;
  clock_hand_ : option nat
}.

(** [ClockReplacer::ClockReplacer]: [clock_hand_] is [begin()] of the empty
    list, which is [end()]. *)
Definition new : ClockReplacer := mk [] ∅ ∅ None.

(** [++it] for the iterator of the node holding [f]: the next node, or
    [end()] after the last one. *)
Fixpoint next (l : list nat) (f : nat) : option nat :=
  match l with
  | [] => None
  | x :: l' => if decide (x = f) then head l' else next l' f
  end.

(** [ref_map_[f]] read as an rvalue: a missing key reads as [false]. *)
Definition ref (m : gmap nat bool) (f : nat) : bool := default false (m !! f).

(** [ClockReplacer::PinThread]. *)
Definition PinThread (r : ClockReplacer) (frame_id : nat) : ClockReplacer :=
  if decide (frame_id ∈ iter_map_ r) then
    let hand :=
      if decide (clock_hand_ r = Some frame_id)
      then next (frame_list_ r) frame_id
      else clock_hand_ r in
    mk (erase frame_id (frame_list_ r))
       (delete frame_id (ref_map_ r))
       (iter_map_ r ∖ {[ frame_id ]})
       hand
  else r.

(** [ClockReplacer::Pin]. *)
Definition Pin (r : ClockReplacer) (frame_id : nat) : ClockReplacer :=
  PinThread r frame_id.

(** [ClockReplacer::Unpin].  [push_back] leaves every iterator, [end()]
    included, where it was. *)
Definition Unpin (r : ClockReplacer) (frame_id : nat) : ClockReplacer :=
  if decide (frame_id ∈ iter_map_ r) then
    mk (frame_list_ r) (<[frame_id := true]> (ref_map_ r))
       (iter_map_ r) (clock_hand_ r)
  else
    mk (frame_list_ r ++ [frame_id]) (<[frame_id := true]> (ref_map_ r))
       ({[ frame_id ]} ∪ iter_map_ r) (clock_hand_ r).

(** [ClockReplacer::Size]. *)
Definition Size (r : ClockReplacer) : nat := length (frame_list_ r).

(** The [while (true)] loop of [ClockReplacer::Victim], one iteration per
    unit of [fuel]; the outer [None] means that the fuel ran out before the
    loop returned.  The list is not empty inside the loop, so the hand
    designates a node once it has been wrapped; the [None] branch of the
    inner match stands for dereferencing [end()] and is never taken on a
    non-empty list.  In the branch that returns, the read [ref_map_[f_id]]
    may create the key [f_id], which [PinThread] erases at once. *)
Fixpoint Victim_loop (fuel : nat) (r : ClockReplacer)
  : option (nat * ClockReplacer) :=
  match fuel with
  | O => None
  | S fuel' =>
      let hand :=
        match clock_hand_ r with
        | None => head (frame_list_ r)
        | Some f => Some f
        end in
      match hand with
      | None => None
      | Some f_id =>
          if negb (ref (ref_map_ r) f_id) then
            Some (f_id,
                  PinThread (mk (frame_list_ r) (ref_map_ r) (iter_map_ r) hand)
                            f_id)
          else
            Victim_loop fuel'
              (mk (frame_list_ r) (<[f_id := false]> (ref_map_ r))
                  (iter_map_ r) (next (frame_list_ r) f_id))
      end
  end.

(** [ClockReplacer::Victim] with the given fuel for its loop.  The outer
    [None] is "out of fuel"; [Some (None, r)] is the [false] return on an
    empty list; [Some (Some f, r')] is [true] with [*frame_id = f]. *)
Definition Victim (fuel : nat) (r : ClockReplacer)
  : option (option nat * ClockReplacer) :=
  match frame_list_ r with
  | [] => Some (None, r)
  | _ :: _ =>
      match Victim_loop fuel r with
      | None => None
      | Some (f, r') => Some (Some f, r')
      end
  end.

(** Distinct ids on the list, one [iter_map_] key and one reference bit
    per node, and a hand that is [end()] or a node of the list. *)
Definition wf (r : ClockReplacer) : Prop :=
  NoDup (frame_list_ r)
  ∧ (∀ f, f ∈ iter_map_ r ↔ f ∈ frame_list_ r)
  ∧ (∀ f, is_Some (ref_map_ r !! f) ↔ f ∈ frame_list_ r)
  ∧ (∀ f, clock_hand_ r = Some f → f ∈ frame_list_ r).

(** The replacers that public calls produce from a fresh one. *)
Inductive reachable : ClockReplacer → Prop :=
| reachable_new : reachable new
| reachable_Unpin r f : reachable r → reachable (Unpin r f)
| reachable_Pin r f : reachable r → reachable (Pin r f)
| reachable_Victim r fuel v r' :
    reachable r → Victim fuel r = Some (v, r') → reachable r'.

(** The nodes from the one holding [h] to the tail. *)
Fixpoint from_node (h : nat) (l : list nat) : list nat :=
  match l with
  | [] => []
  | x :: l' => if decide (x = h) then l else from_node h l'
  end.

(** The nodes from the head up to, and without, the one holding [h]. *)
Fixpoint upto_node (h : nat) (l : list nat) : list nat :=
  match l with
  | [] => []
  | x :: l' => if decide (x = h) then [] else x :: upto_node h l'
  end.

(** The ring read from the hand: the nodes from the hand to the tail, then
    those from the head up to the hand.  With the hand at [end()] the ring
    starts at the head. *)
Definition ring (r : ClockReplacer) : list nat :=
  match clock_hand_ r with
  | None => frame_list_ r
  | Some h => from_node h (frame_list_ r) ++ upto_node h (frame_list_ r)
  end.

(** [ref_map_[x] = false] for every [x] of [passed], in that order. *)
Definition clear (passed : list nat) (m : gmap nat bool) : gmap nat bool :=
  foldl (λ m x, <[x := false]> m) m passed.

(** [k] successive [Victim] calls, each with [fuel] for its loop: the
    frames returned, in call order, and the final replacer.  [None] when a
    call runs out of fuel or finds the list empty. *)
Fixpoint drain (fuel k : nat) (r : ClockReplacer)
  : option (list nat * ClockReplacer) :=
  match k with
  | O => Some ([], r)
  | S k' =>
      match Victim fuel r with
      | Some (Some f, r1) =>
          match drain fuel k' r1 with
          | Some (fs, r2) => Some (f :: fs, r2)
          | None => None
          end
      | _ => None
      end
  end.

End Clock.

(** ** Buffer pool manager ([buffer_pool_manager.cpp]) *)
Module Bpm.

(** Events at the interface of the page store, oldest first in a log. *)
Inductive io :=
| IoRead (page_id : Z)
| IoWrite (page_id : Z) (payload : list byte)
| IoAllocate (page_id : Z)
| IoDeallocate (page_id : Z).

(** Modelled from the spec: the page store ([DiskManager], whose header and
    implementation are not among the sources).  [ReadPage] fills the buffer
    with the stored payload of the page, [WritePage] persists a payload,
    [AllocatePage] returns a fresh identifier and [DeallocatePage] is
    recorded only.  [log_] records every call. *)
Record DiskManager := mkDisk {
  store_ : gmap Z (list byte);
  next_page_id_ : Z;
  log_ : list io
}.

(** Modelled from the spec: a frame ([Page], whose header is not among the
    sources) with its payload buffer, the page it holds, its pin count and
    its dirty flag.  [pin_count_] is a signed [int]: the source tests
    [pin_count_ <= 0] and [--pin_count_ <= 0].  It is held as a [Z], and
    the one arithmetic step the manager takes on it, the decrement in
    [UnpinPageImpl], is wrapped to 32 bits by [int_wrap]. *)
Record Page := mkPage {
  data_ : list byte;
  page_id_ : Z;
  pin_count_ : Z;
  is_dirty_ : bool
}.

Record BufferPoolManager := mk {
  pool_size_ : nat;
  pages_ : list Page;
  page_table_ : gmap Z nat;
  replacer_ : LRU.LRUReplacer;
  free_list_ : list nat;
  disk_manager_ : DiskManager
}.

(** The operations of the public surface, as a caller issues them. *)
Inductive call :=
| Fetch (page_id : Z)
| Unpin (page_id : Z) (is_dirty : bool)
| Flush (page_id : Z)
| FlushAll
| NewPage
| DeletePage (page_id : Z).

(** What a call returns: a [Page*] as the index of the frame ([None] for
    [nullptr]), a [bool], the frame together with the identifier written
    through the out-parameter of [NewPage], or nothing. *)
Inductive ret :=
| RPage (frame : option nat)
| RBool (b : bool)
| RNew (r : option (Z * nat))
| RVoid.

Definition INVALID_PAGE_ID : Z := -1.

(** The bounds of a 32-bit [int]. *)
Definition INT_MIN : Z := -2147483648.
Definition INT_MAX : Z := 2147483647.

(** The [int] that holds the arithmetic result [z]: two's complement
    wrap-around to 32 bits, so that [INT_MIN - 1] is [INT_MAX]. *)
Definition int_wrap (z : Z) : Z :=
  (z + 2147483648) mod 4294967296 - 2147483648.

Section WithPageSize.

(** Modelled from the spec: the page size, an engine-wide build-time
    constant whose definition is not among the sources. *)
Variable PAGE_SIZE : nat.

Definition zeroes : list byte := replicate PAGE_SIZE x00.

Definition ReadPage (d : DiskManager) (page_id : Z) : list byte * DiskManager :=
  (default zeroes (store_ d !! page_id),
   mkDisk (store_ d) (next_page_id_ d) (log_ d ++ [IoRead page_id])).

Definition WritePage (d : DiskManager) (page_id : Z) (payload : list byte)
  : DiskManager :=
  mkDisk (<[page_id := payload]> (store_ d)) (next_page_id_ d)
         (log_ d ++ [IoWrite page_id payload]).

Definition AllocatePage (d : DiskManager) : Z * DiskManager :=
  (next_page_id_ d,
   mkDisk (store_ d) (next_page_id_ d + 1)
          (log_ d ++ [IoAllocate (next_page_id_ d)])).

Definition DeallocatePage (d : DiskManager) (page_id : Z) : DiskManager :=
  mkDisk (store_ d) (next_page_id_ d) (log_ d ++ [IoDeallocate page_id]).

(** A page store that holds nothing yet. *)
Definition empty_disk : DiskManager := mkDisk ∅ 0 [].

(** A frame as [new Page[pool_size_]] leaves it. *)
Definition fresh_page : Page := mkPage zeroes INVALID_PAGE_ID 0 false.

(** [Page::ResetMemory]: the payload buffer is zeroed. *)
Definition ResetMemory (pg : Page) : Page :=
  mkPage zeroes (page_id_ pg) (pin_count_ pg) (is_dirty_ pg).

(** Field assignments through a [Page*]. *)
Definition set_data (v : list byte) (pg : Page) : Page :=
  mkPage v (page_id_ pg) (pin_count_ pg) (is_dirty_ pg).
Definition set_page_id (v : Z) (pg : Page) : Page :=
  mkPage (data_ pg) v (pin_count_ pg) (is_dirty_ pg).
Definition set_pin_count (v : Z) (pg : Page) : Page :=
  mkPage (data_ pg) (page_id_ pg) v (is_dirty_ pg).
Definition set_is_dirty (v : bool) (pg : Page) : Page :=
  mkPage (data_ pg) (page_id_ pg) (pin_count_ pg) v.

(** Member assignments of the manager. *)
Definition set_pages (v : list Page) (s : BufferPoolManager) :=
  mk (pool_size_ s) v (page_table_ s) (replacer_ s) (free_list_ s)
     (disk_manager_ s).
Definition set_page_table (v : gmap Z nat) (s : BufferPoolManager) :=
  mk (pool_size_ s) (pages_ s) v (replacer_ s) (free_list_ s)
     (disk_manager_ s).
Definition set_replacer (v : LRU.LRUReplacer) (s : BufferPoolManager) :=
  mk (pool_size_ s) (pages_ s) (page_table_ s) v (free_list_ s)
     (disk_manager_ s).
Definition set_free_list (v : list nat) (s : BufferPoolManager) :=
  mk (pool_size_ s) (pages_ s) (page_table_ s) (replacer_ s) v
     (disk_manager_ s).
Definition set_disk_manager (v : DiskManager) (s : BufferPoolManager) :=
  mk (pool_size_ s) (pages_ s) (page_table_ s) (replacer_ s) (free_list_ s) v.

(** [pages_[f]] read.  The frame ids the manager uses come from the free
    list, the page table and the replacer, all below [pool_size_] (lemma
    [BpmFacts.reachable_in_range]); outside the array the read is not
    defined in the source and gives [fresh_page] here. *)
Definition page_at (s : BufferPoolManager) (f : nat) : Page :=
  default fresh_page (pages_ s !! f).

(** A write through [pages_ + f]. *)
Definition upd_page (f : nat) (g : Page → Page) (s : BufferPoolManager) :=
  set_pages (alter g f (pages_ s)) s.

(** [BufferPoolManager::BufferPoolManager]: a fresh frame array, an LRU
    replacer, and every frame on the free list in increasing order. *)
Definition new (pool_size : nat) (disk_manager : DiskManager)
  : BufferPoolManager :=
  mk pool_size (replicate pool_size fresh_page) ∅ LRU.new
     (seq 0 pool_size) disk_manager.

(** [BufferPoolManager::PickVictimFrame]; [None] is the [-1] return. *)
Definition PickVictimFrame (s : BufferPoolManager)
  : option nat * BufferPoolManager :=
  match free_list_ s with
  | frame_id :: rest => (Some frame_id, set_free_list rest s)
  | [] =>
      match LRU.Victim (replacer_ s) with
      | (None, r) => (None, set_replacer r s)
      | (Some frame_id, r) =>
          let s1 := set_replacer r s in
          let page := page_at s1 frame_id in
          let page_id := page_id_ page in
          let s2 := set_page_table (delete page_id (page_table_ s1)) s1 in
          let s3 :=
            if is_dirty_ page then
              set_disk_manager
                (WritePage (disk_manager_ s2) page_id (data_ page)) s2
            else s2 in
          (Some frame_id, s3)
      end
  end.

(** [BufferPoolManager::AllPagesPinned]. *)
Definition AllPagesPinned (s : BufferPoolManager) : bool :=
  forallb (λ i, negb (pin_count_ (page_at s i) <=? 0)) (seq 0 (pool_size_ s)).

(** [BufferPoolManager::FetchPageImpl]. *)
Definition FetchPageImpl (s : BufferPoolManager) (page_id : Z)
  : option nat * BufferPoolManager :=
  match page_table_ s !! page_id with
  | Some f =>
      if 0 <? pin_count_ (page_at s f) then (Some f, s)
      else (Some f, set_replacer (LRU.Pin (replacer_ s) f) s)
  | None =>
      match PickVictimFrame s with
      | (None, s1) => (None, s1)
      | (Some frame_id, s1) =>
          let s2 := set_page_table (<[page_id := frame_id]> (page_table_ s1)) s1 in
          let s3 := upd_page frame_id (set_page_id page_id) s2 in
          let s4 := upd_page frame_id ResetMemory s3 in
          let s5 := upd_page frame_id (set_pin_count 1) s4 in
          let s6 := upd_page frame_id (set_is_dirty false) s5 in
          let '(payload, d) := ReadPage (disk_manager_ s6) page_id in
          let s7 := upd_page frame_id (set_data payload) (set_disk_manager d s6) in
          (Some frame_id, s7)
      end
  end.

(** [BufferPoolManager::UnpinPageImpl]. *)
Definition UnpinPageImpl (s : BufferPoolManager) (page_id : Z) (is_dirty : bool)
  : bool * BufferPoolManager :=
  match page_table_ s !! page_id with
  | None => (false, s)
  | Some f =>
      let s1 :=
        upd_page f (λ pg, set_pin_count (int_wrap (pin_count_ pg - 1)) pg) s in
      let s2 :=
        if pin_count_ (page_at s1 f) <=? 0
        then set_replacer (LRU.Unpin (replacer_ s1) f) s1
        else s1 in
      let s3 := upd_page f (λ pg, set_is_dirty (is_dirty_ pg || is_dirty) pg) s2 in
      (true, s3)
  end.

(** [BufferPoolManager::FlushPageImpl]. *)
Definition FlushPageImpl (s : BufferPoolManager) (page_id : Z)
  : bool * BufferPoolManager :=
  match page_table_ s !! page_id with
  | None => (false, s)
  | Some f =>
      let s1 :=
        set_disk_manager
          (WritePage (disk_manager_ s) page_id (data_ (page_at s f))) s in
      (true, upd_page f (set_is_dirty false) s1)
  end.

(** [BufferPoolManager::NewPageImpl]; the first component of the result
    pair is the value stored through [page_id]. *)
Definition NewPageImpl (s : BufferPoolManager)
  : option (Z * nat) * BufferPoolManager :=
  if AllPagesPinned s then (None, s)
  else
    match PickVictimFrame s with
    | (None, s1) => (None, s1)
    | (Some frame_id, s1) =>
        let '(page_id, d) := AllocatePage (disk_manager_ s1) in
        let s2 := set_disk_manager d s1 in
        let s3 := set_page_table (<[page_id := frame_id]> (page_table_ s2)) s2 in
        let s4 := upd_page frame_id (set_page_id page_id) s3 in
        let s5 := upd_page frame_id ResetMemory s4 in
        let s6 := upd_page frame_id (set_pin_count 1) s5 in
        let s7 := upd_page frame_id (set_is_dirty false) s6 in
        (Some (page_id, frame_id), s7)
    end.

(** [BufferPoolManager::DeletePageImpl]. *)
Definition DeletePageImpl (s : BufferPoolManager) (page_id : Z)
  : bool * BufferPoolManager :=
  match page_table_ s !! page_id with
  | None => (false, s)
  | Some f =>
      if 0 <? pin_count_ (page_at s f) then (false, s)
      else
        let s1 := set_free_list (free_list_ s ++ [f]) s in
        let s2 := set_page_table (delete page_id (page_table_ s1)) s1 in
        let s3 := upd_page f ResetMemory s2 in
        let s4 :=
          set_disk_manager (DeallocatePage (disk_manager_ s3) page_id) s3 in
        (true, s4)
  end.

(** [BufferPoolManager::FlushAllPagesImpl]: the body is empty. *)
Definition FlushAllPagesImpl (s : BufferPoolManager) : BufferPoolManager := s.

(** One public call. *)
Definition step (s : BufferPoolManager) (c : call) : ret * BufferPoolManager :=
  match c with
  | Fetch p => let '(r, s') := FetchPageImpl s p in (RPage r, s')
  | Unpin p d => let '(r, s') := UnpinPageImpl s p d in (RBool r, s')
  | Flush p => let '(r, s') := FlushPageImpl s p in (RBool r, s')
  | FlushAll => (RVoid, FlushAllPagesImpl s)
  | NewPage => let '(r, s') := NewPageImpl s in (RNew r, s')
  | DeletePage p => let '(r, s') := DeletePageImpl s p in (RBool r, s')
  end.

(** A sequence of public calls, first call first. *)
Definition run (s : BufferPoolManager) (cs : list call) : BufferPoolManager :=
  foldl (λ s c, (step s c).2) s cs.

(** The payloads handed to [WritePage], oldest first. *)
Definition writes (d : DiskManager) : list (Z * list byte) :=
  omap (λ e, match e with IoWrite p b => Some (p, b) | _ => None end) (log_ d).

(** The pages asked of [ReadPage], oldest first. *)
Definition reads (d : DiskManager) : list Z :=
  omap (λ e, match e with IoRead p => Some p | _ => None end) (log_ d).

(** The frames the page table maps some page to. *)
Definition resident (s : BufferPoolManager) (f : nat) : Prop :=
  ∃ p, page_table_ s !! p = Some f.

(** The replacer's evictable set. *)
Definition evictable (s : BufferPoolManager) (f : nat) : Prop :=
  f ∈ LRU.frame_list_ (replacer_ s).

(** Every frame id the manager holds is an index of the frame array. *)
Definition in_range (s : BufferPoolManager) : Prop :=
  length (pages_ s) = pool_size_ s
  ∧ LRU.wf (replacer_ s)
  ∧ Forall (λ f, (f < pool_size_ s)%nat) (free_list_ s)
  ∧ Forall (λ f, (f < pool_size_ s)%nat) (LRU.frame_list_ (replacer_ s))
  ∧ ∀ p f, page_table_ s !! p = Some f → (f < pool_size_ s)%nat.

(** The caller contract on [Unpin]: the page, when resident, is unpinned
    only while its pin count is positive. *)
Definition within_contract (s : BufferPoolManager) (c : call) : bool :=
  match c with
  | Unpin p _ =>
      match page_table_ s !! p with
      | Some f => 0 <? pin_count_ (page_at s f)
      | None => true
      end
  | _ => true
  end.

(** A sequence of calls each of which is within the contract in the state
    it is issued in. *)
Fixpoint disciplined (s : BufferPoolManager) (cs : list call) : bool :=
  match cs with
  | [] => true
  | c :: cs' => within_contract s c && disciplined (step s c).2 cs'
  end.

(** The caller names allocated pages only: a [Fetch] asks for a page
    identifier below the next one the page store will hand out. *)
Definition addresses_allocated (s : BufferPoolManager) (c : call) : bool :=
  match c with
  | Fetch p => p <? next_page_id_ (disk_manager_ s)
  | _ => true
  end.

(** A sequence of calls each of which names an allocated page in the state
    it is issued in. *)
Fixpoint well_addressed (s : BufferPoolManager) (cs : list call) : bool :=
  match cs with
  | [] => true
  | c :: cs' => addresses_allocated s c && well_addressed (step s c).2 cs'
  end.

(** The free list and the page table share out the frames: no frame is
    twice on the free list, a free frame holds no page, every frame of the
    array is free or holds a page, each page of the table sits in a frame
    that carries its identifier, and the table names allocated pages. *)
Definition coherent (s : BufferPoolManager) : Prop :=
  NoDup (free_list_ s)
  ∧ (∀ f, f ∈ free_list_ s → ¬ resident s f)
  ∧ (∀ f, (f < pool_size_ s)%nat → f ∈ free_list_ s ∨ resident s f)
  ∧ (∀ p f, page_table_ s !! p = Some f → page_id_ (page_at s f) = p)
  ∧ (∀ p, is_Some (page_table_ s !! p) → p < next_page_id_ (disk_manager_ s)).

(** The same, between [PickVictimFrame] and the installation of the new
    page: the frame [f] that was picked is neither free nor resident. *)
Definition coherent_but (s : BufferPoolManager) (f : nat) : Prop :=
  NoDup (free_list_ s)
  ∧ (f ∉ free_list_ s)
  ∧ (¬ resident s f)
  ∧ (∀ g, g ∈ free_list_ s → ¬ resident s g)
  ∧ (∀ g, (g < pool_size_ s)%nat → g ≠ f → g ∈ free_list_ s ∨ resident s g)
  ∧ (∀ p g, page_table_ s !! p = Some g → page_id_ (page_at s g) = p)
  ∧ (∀ p, is_Some (page_table_ s !! p) → p < next_page_id_ (disk_manager_ s)).

(** A pool of [pool_size_] frames whose first [k] frames have been handed
    out, in order, to [k] new pages that are still pinned, the other frames
    waiting on the free list in increasing order; [next] is the first
    identifier the page store handed out. *)
Definition cold_filled (next : Z) (k : nat) (s : BufferPoolManager) : Prop :=
  length (pages_ s) = pool_size_ s
  ∧ free_list_ s = seq k (pool_size_ s - k)
  ∧ (∀ i, (i < k)%nat → pin_count_ (page_at s i) = 1)
  ∧ (∀ i, (k ≤ i < pool_size_ s)%nat → pin_count_ (page_at s i) = 0)
  ∧ next_page_id_ (disk_manager_ s) = next + Z.of_nat k.

End WithPageSize.

End Bpm.

(** * Properties *)

(** ** The list helper *)
Lemma elem_of_erase (f x : nat) (l : list nat) :
  NoDup l → x ∈ erase f l ↔ x ∈ l ∧ x ≠ f.
Proof.
  induction l as [|y l IH]; intros Hnd; simpl.
  - split; [intros H; inversion H | intros [H _]; inversion H].
  - apply NoDup_cons in Hnd as [Hy Hnd].
    destruct (decide (y = f)) as [->|Hne].
    + rewrite elem_of_cons. split.
      * intros Hx. split; [by right | intros ->; contradiction].
      * intros [[->|Hx] Hxf]; [contradiction | done].
    + rewrite !elem_of_cons, IH by done. intuition congruence.
Qed.

Lemma NoDup_erase (f : nat) (l : list nat) : NoDup l → NoDup (erase f l).
Proof.
  induction l as [|y l IH]; intros Hnd; simpl; [done|].
  apply NoDup_cons in Hnd as [Hy Hnd].
  destruct (decide (y = f)); [done|].
  apply NoDup_cons. split; [|by apply IH].
  rewrite elem_of_erase by done. intuition congruence.
Qed.

Lemma erase_head (f : nat) (l : list nat) : erase f (f :: l) = l.
Proof. simpl. by rewrite decide_True. Qed.

Lemma erase_absent (f : nat) (l : list nat) : f ∉ l → erase f l = l.
Proof.
  induction l as [|x l IH]; intros Hf; [done|]. simpl.
  apply not_elem_of_cons in Hf as [Hne Hf].
  rewrite decide_False by done. by rewrite IH.
Qed.

Lemma length_erase (f : nat) (l : list nat) :
  f ∈ l → S (length (erase f l)) = length l.
Proof.
  induction l as [|x l IH]; intros Hf; [inversion Hf|]. simpl.
  destruct (decide (x = f)) as [->|Hne]; [done|].
  apply elem_of_cons in Hf as [->|Hf]; [done|]. simpl. by rewrite IH.
Qed.

Lemma erase_Permutation (f : nat) (l : list nat) : f ∈ l → l ≡ₚ f :: erase f l.
Proof.
  induction l as [|x l IH]; intros Hf; [inversion Hf|]. simpl.
  destruct (decide (x = f)) as [->|Hne]; [done|].
  apply elem_of_cons in Hf as [->|Hf]; [done|].
  rewrite (IH Hf) at 1. apply Permutation_swap.
Qed.

Lemma erase_snoc (f : nat) (l : list nat) : f ∉ l → erase f (l ++ [f]) = l.
Proof.
  induction l as [|x l IH]; intros Hf; simpl.
  - by rewrite decide_True.
  - apply not_elem_of_cons in Hf as [Hne Hf].
    rewrite decide_False by done. by rewrite IH.
Qed.

Lemma keys_add_elem (f : nat) (ks : gset nat) : f ∈ {[ f ]} ∪ ks.
Proof. apply elem_of_union. left. by apply elem_of_singleton. Qed.

Lemma keys_remove_not_elem (f : nat) (ks : gset nat) : f ∉ ks ∖ {[ f ]}.
Proof. rewrite elem_of_difference, elem_of_singleton. by intros [_ ?]. Qed.

Lemma keys_add_remove (f : nat) (ks : gset nat) :
  f ∉ ks → ({[ f ]} ∪ ks) ∖ {[ f ]} = ks.
Proof.
  intros Hf. apply set_eq. intros x.
  rewrite elem_of_difference, elem_of_union, elem_of_singleton. split.
  - by intros [[->|Hx] Hne].
  - intros Hx. split; [by right|]. by intros ->.
Qed.

(** ** LRU replacer *)
Module LRUFacts.
Import LRU.

Lemma lru_wf_new : wf new.
Proof. split; [constructor | intros f; simpl; set_solver]. Qed.

Lemma lru_wf_Unpin r f : wf r → wf (Unpin r f).
Proof.
  intros [Hnd Hk]. unfold Unpin. destruct (decide (f ∈ iter_map_ r)) as [Hin|Hin].
  - by split.
  - split; simpl.
    + apply NoDup_cons. split; [by rewrite <- Hk | done].
    + intros x. rewrite elem_of_union, elem_of_singleton, elem_of_cons, Hk. done.
Qed.

Lemma lru_wf_Pin r f : wf r → wf (Pin r f).
Proof.
  intros [Hnd Hk]. unfold Pin. destruct (decide (f ∈ iter_map_ r)) as [Hin|Hin].
  - split; simpl.
    + by apply NoDup_erase.
    + intros x. rewrite elem_of_difference, elem_of_singleton, elem_of_erase, Hk; done.
  - by split.
Qed.

Lemma lru_Victim_snoc l x ks :
  Victim (mk (l ++ [x]) ks) = (Some x, mk l (ks ∖ {[ x ]})).
Proof. unfold Victim. simpl. by rewrite last_snoc, removelast_last. Qed.

Lemma lru_wf_Victim r : wf r → wf (Victim r).2.
Proof.
  destruct r as [l ks]. destruct l as [|y l0 _] using rev_ind; [done|].
  intros [Hnd Hk]. simpl in *. rewrite lru_Victim_snoc. simpl.
  apply NoDup_app in Hnd as (Hl0 & Hdis & _). split; simpl; [done|].
  intros x. rewrite elem_of_difference, elem_of_singleton, Hk, elem_of_app, list_elem_of_singleton.
  split.
  - intros [[H| ->] Hne]; [done | done].
  - intros H. split; [by left|]. intros ->. apply (Hdis y H). by apply list_elem_of_singleton.
Qed.

Lemma unpins_fresh fs : ∀ r,
  wf r → NoDup fs → (∀ f, f ∈ fs → f ∉ frame_list_ r) →
  frame_list_ (unpins r fs) = reverse fs ++ frame_list_ r.
Proof.
  induction fs as [|x fs IH]; intros r Hwf Hnd Hfresh; [done|].
  apply NoDup_cons in Hnd as [Hx Hnd].
  change (unpins r (x :: fs)) with (unpins (Unpin r x) fs).
  assert (Hstep : frame_list_ (Unpin r x) = x :: frame_list_ r).
  { unfold Unpin. destruct (decide (x ∈ iter_map_ r)) as [Hin|Hin]; [|done].
    destruct Hwf as [_ Hk]. apply Hk in Hin. destruct (Hfresh x); [left | done]. }
  rewrite IH; [| by apply lru_wf_Unpin | done |].
  - rewrite Hstep, reverse_cons, <- app_assoc. done.
  - intros f Hf. rewrite Hstep, elem_of_cons. intros [->|Hin]; [done|].
    by apply (Hfresh f); [right|].
Qed.

Lemma victims_order k : ∀ r,
  (k ≤ length (frame_list_ r))%nat →
  (victims k r).1 = Some <$> take k (reverse (frame_list_ r)).
Proof.
  induction k as [|k IH]; intros [l ks] Hk; [done|].
  destruct l as [|y l0 _] using rev_ind; [simpl in Hk; lia|].
  simpl in Hk. rewrite length_app in Hk. simpl in Hk.
  cbn [victims]. rewrite lru_Victim_snoc.
  specialize (IH (mk l0 (ks ∖ {[ y ]}))). simpl in IH.
  destruct (victims k (mk l0 (ks ∖ {[ y ]}))) as [vs r2]. simpl in *.
  rewrite reverse_snoc. simpl. f_equal. apply IH. lia.
Qed.

(** C8.  LRU ordering: starting from the empty replacer, after [Unpin] on
    the pairwise distinct frames [f1, ..., fk] in that order, with no [Pin]
    or [Victim] in between, the next [k] calls of [Victim] all succeed and
    return [f1, ..., fk] in that order. *)
Theorem lru_victims_follow_unpin_order (fs : list nat) :
  NoDup fs →
  (victims (length fs) (unpins new fs)).1 = Some <$> fs.
Proof.
  intros Hnd.
  assert (Hl : frame_list_ (unpins new fs) = reverse fs).
  { rewrite unpins_fresh; [by rewrite app_nil_r | apply lru_wf_new | done |].
    intros f _ Hin. simpl in Hin. inversion Hin. }
  rewrite victims_order by (rewrite Hl, length_reverse; lia).
  rewrite Hl, reverse_involutive, firstn_all. done.
Qed.

Lemma lru_victims_follow_unpin_order_witness :
  NoDup [4; 1; 7]%nat ∧
  (victims 3 (unpins new [4; 1; 7]%nat)).1 = [Some 4; Some 1; Some 7]%nat.
Proof.
  assert (Hnd : NoDup [4; 1; 7]%nat) by (apply (bool_decide_unpack _); vm_compute; exact I).
  split; [exact Hnd | exact (lru_victims_follow_unpin_order [4; 1; 7]%nat Hnd)].
Defined.

(** *** Further properties of the LRU replacer *)

Lemma lru_reachable_wf r : reachable r → wf r.
Proof.
  induction 1 as [|r f _ IH|r f _ IH|r _ IH].
  - apply lru_wf_new.
  - by apply lru_wf_Unpin.
  - by apply lru_wf_Pin.
  - by apply lru_wf_Victim.
Qed.

(** X1.  In every LRU replacer reached by public calls the list holds each
    evictable frame once, the keys of [iter_map_] are exactly the frames on
    the list, and [Size] is the number of evictable frames. *)
Theorem lru_size_counts_evictable (r : LRUReplacer) :
  reachable r →
  NoDup (frame_list_ r)
  ∧ (∀ f, f ∈ iter_map_ r ↔ f ∈ frame_list_ r)
  ∧ Size r = size (iter_map_ r).
Proof.
  intros [Hnd Hk]%lru_reachable_wf. split; [done|]. split; [done|].
  unfold Size. rewrite <- (size_list_to_set (C := gset nat)) by done.
  f_equal. apply set_eq. intros x. by rewrite elem_of_list_to_set, Hk.
Qed.

Lemma lru_size_counts_evictable_witness :
  reachable (Pin (Unpin (Unpin new 3) 5) 3)
  ∧ Size (Pin (Unpin (Unpin new 3) 5) 3) = size (iter_map_ (Pin (Unpin (Unpin new 3) 5) 3)).
Proof.
  assert (H : reachable (Pin (Unpin (Unpin new 3) 5) 3))
    by (apply reachable_Pin; do 2 apply reachable_Unpin; apply reachable_new).
  split; [exact H|]. exact (proj2 (proj2 (lru_size_counts_evictable _ H))).
Defined.

(** X2.  [Pin] and [Unpin] are idempotent: a second [Unpin] of a frame
    leaves the replacer as the first left it (the frame keeps its place in
    the order), and so does a second [Pin]. *)
Theorem lru_pin_unpin_idempotent (r : LRUReplacer) (f : nat) :
  Unpin (Unpin r f) f = Unpin r f ∧ Pin (Pin r f) f = Pin r f.
Proof.
  split.
  - unfold Unpin at 1. destruct (decide (f ∈ iter_map_ (Unpin r f))) as [|Hn]; [done|].
    destruct Hn. unfold Unpin. destruct (decide (f ∈ iter_map_ r)); [done|].
    simpl. apply keys_add_elem.
  - unfold Pin at 1. destruct (decide (f ∈ iter_map_ (Pin r f))) as [Hin|]; [|done].
    exfalso. revert Hin. unfold Pin. destruct (decide (f ∈ iter_map_ r)); [|done].
    simpl. apply keys_remove_not_elem.
Qed.

(** X3.  [Unpin] of a frame that is not evictable, followed by [Pin] of
    it, gives back the replacer as it was. *)
Theorem lru_unpin_pin_round_trip (r : LRUReplacer) (f : nat) :
  reachable r → f ∉ frame_list_ r → Pin (Unpin r f) f = r.
Proof.
  intros [Hnd Hk]%lru_reachable_wf Hf. destruct r as [l ks]. simpl in *.
  assert (Hks : f ∉ ks) by (by rewrite Hk).
  unfold Unpin. simpl. rewrite decide_False by done.
  unfold Pin. simpl. rewrite decide_True by apply keys_add_elem.
  rewrite decide_True by done. f_equal. by apply keys_add_remove.
Qed.

Lemma lru_unpin_pin_round_trip_witness :
  reachable (Unpin new 2) ∧ (7%nat ∉ frame_list_ (Unpin new 2))
  ∧ Pin (Unpin (Unpin new 2) 7) 7 = Unpin new 2.
Proof.
  assert (H : reachable (Unpin new 2)) by (apply reachable_Unpin, reachable_new).
  assert (H' : 7%nat ∉ frame_list_ (Unpin new 2))
    by (apply (bool_decide_unpack _); vm_compute; exact I).
  split; [exact H|]. split; [exact H'|].
  exact (lru_unpin_pin_round_trip _ 7%nat H H').
Defined.

(** X4.  [Pin] then [Unpin] of an evictable frame makes it the most recent
    one: it moves to the front of the list, the other frames keeping their
    order, so that it is the last of them to be chosen as victim. *)
Theorem lru_repin_refreshes (r : LRUReplacer) (f : nat) :
  reachable r →
  frame_list_ (Unpin (Pin r f) f) = f :: erase f (frame_list_ r).
Proof.
  intros [Hnd Hk]%lru_reachable_wf.
  assert (Hout : f ∉ iter_map_ (Pin r f)).
  { unfold Pin. destruct (decide (f ∈ iter_map_ r)); [|done].
    simpl. apply keys_remove_not_elem. }
  unfold Unpin. rewrite decide_False by done. simpl. f_equal.
  unfold Pin. destruct (decide (f ∈ iter_map_ r)) as [|Hn]; [done|].
  symmetry. apply erase_absent. by rewrite <- Hk.
Qed.

Lemma lru_repin_refreshes_witness :
  reachable (Unpin (Unpin new 1) 2)
  ∧ frame_list_ (Unpin (Pin (Unpin (Unpin new 1) 2) 1) 1) = [1; 2]%nat.
Proof.
  assert (H : reachable (Unpin (Unpin new 1) 2))
    by (do 2 apply reachable_Unpin; apply reachable_new).
  split; [exact H|]. exact (lru_repin_refreshes _ 1%nat H).
Defined.

(** X5.  [Victim] on a reachable replacer: on an empty list it reports
    failure and changes nothing; otherwise it returns a frame of the list,
    which leaves the list and the key set, every other frame staying, and
    [Size] drops by one. *)
Theorem lru_victim_takes_one (r : LRUReplacer) :
  reachable r →
  (frame_list_ r = [] → Victim r = (None, r))
  ∧ (frame_list_ r ≠ [] →
     ∃ f, (Victim r).1 = Some f
          ∧ f ∈ frame_list_ r
          ∧ frame_list_ (Victim r).2 = erase f (frame_list_ r)
          ∧ (f ∉ frame_list_ (Victim r).2)
          ∧ (f ∉ iter_map_ (Victim r).2)
          ∧ S (Size (Victim r).2) = Size r).
Proof.
  intros [Hnd Hk]%lru_reachable_wf. split.
  { intros Hnil. unfold Victim. by rewrite Hnil. }
  intros Hne. destruct r as [l ks]. simpl in *.
  destruct l as [|y l0 _] using rev_ind; [done|].
  rewrite lru_Victim_snoc. simpl. exists y.
  apply NoDup_app in Hnd as (Hl0 & Hdis & _).
  assert (Hy : y ∉ l0).
  { intros Hy. apply (Hdis y Hy). left. }
  split; [done|]. split; [apply elem_of_app; right; left|].
  split.
  { clear -Hy. induction l0 as [|x l0 IH]; simpl.
    - by rewrite decide_True.
    - apply not_elem_of_cons in Hy as [Hne Hy].
      rewrite decide_False by done. by rewrite <- IH. }
  split; [done|]. split; [apply keys_remove_not_elem|].
  unfold Size. simpl. rewrite length_app. simpl. lia.
Qed.

Lemma lru_victim_takes_one_witness :
  reachable (Unpin (Unpin new 1) 2)
  ∧ ∃ f, (Victim (Unpin (Unpin new 1) 2)).1 = Some f.
Proof.
  assert (H : reachable (Unpin (Unpin new 1) 2))
    by (do 2 apply reachable_Unpin; apply reachable_new).
  split; [exact H|].
  destruct (proj2 (lru_victim_takes_one _ H)) as (f & Hf & _).
  { vm_compute. discriminate. }
  by exists f.
Defined.

(** X6.  A pinned frame is never the victim: after [Pin] of [f] the frame
    is not on the list, every other frame is still there, and the next
    [Victim] does not return [f]. *)
Theorem lru_pinned_frame_not_victim (r : LRUReplacer) (f : nat) :
  reachable r →
  (f ∉ frame_list_ (Pin r f))
  ∧ (∀ g, g ≠ f → (g ∈ frame_list_ (Pin r f) ↔ g ∈ frame_list_ r))
  ∧ (Victim (Pin r f)).1 ≠ Some f.
Proof.
  intros Hr. pose proof (lru_reachable_wf _ Hr) as [Hnd Hk].
  assert (Hl : frame_list_ (Pin r f) = erase f (frame_list_ r)).
  { unfold Pin. destruct (decide (f ∈ iter_map_ r)) as [|Hn]; [done|].
    symmetry. apply erase_absent. by rewrite <- Hk. }
  assert (Hout : f ∉ frame_list_ (Pin r f)).
  { rewrite Hl, elem_of_erase by done. by intros [_ ?]. }
  split; [done|]. split.
  - intros g Hg. rewrite Hl, elem_of_erase by done. by split; [intros [? _]|].
  - intros Hv. apply Hout.
    destruct (Victim (Pin r f)) as [v r'] eqn:Hvic. simpl in Hv. subst v.
    unfold Victim in Hvic.
    destruct (last (frame_list_ (Pin r f))) as [x|] eqn:Hlast; [|done].
    injection Hvic as <- _. by apply last_Some_elem_of.
Qed.

Lemma lru_pinned_frame_not_victim_witness :
  reachable (Unpin (Unpin new 1) 2)
  ∧ (Victim (Pin (Unpin (Unpin new 1) 2) 1)).1 ≠ Some 1%nat.
Proof.
  assert (H : reachable (Unpin (Unpin new 1) 2))
    by (do 2 apply reachable_Unpin; apply reachable_new).
  split; [exact H|].
  exact (proj2 (proj2 (lru_pinned_frame_not_victim _ 1%nat H))).
Defined.

End LRUFacts.

(** ** CLOCK replacer *)
Module ClockFacts.
Import Clock.

(** *** Iterators *)

Lemma next_app (a b : list nat) (x : nat) :
  NoDup (a ++ x :: b) → next (a ++ x :: b) x = head b.
Proof.
  induction a as [|y a IH]; intros Hnd; simpl.
  - by rewrite decide_True.
  - apply NoDup_cons in Hnd as [Hy Hnd].
    rewrite decide_False; [by apply IH|].
    intros ->. apply Hy. apply elem_of_app. right. left.
Qed.

Lemma next_Some (l : list nat) (f g : nat) :
  NoDup l → next l f = Some g → g ∈ l ∧ g ≠ f.
Proof.
  induction l as [|x l IH]; intros Hnd; simpl; [done|].
  apply NoDup_cons in Hnd as [Hx Hnd].
  destruct (decide (x = f)) as [->|Hne].
  - destruct l as [|y l]; simpl; [done|]. intros [= ->].
    split; [right; left|]. intros ->. apply Hx. left.
  - intros Hg. destruct (IH Hnd Hg) as [Hin Hgf]. split; [by right | done].
Qed.

Lemma split_at_node (h : nat) (l : list nat) :
  h ∈ l →
  l = upto_node h l ++ from_node h l ∧ ∃ b, from_node h l = h :: b.
Proof.
  induction l as [|x l IH]; intros Hin; [inversion Hin|]. simpl.
  destruct (decide (x = h)) as [->|Hne]; [eauto|].
  apply elem_of_cons in Hin as [->|Hin]; [done|].
  destruct (IH Hin) as [Heq Hb]. split; [simpl; by f_equal | done].
Qed.

(** *** Reference bits *)

Lemma clear_lookup (passed : list nat) : ∀ (m : gmap nat bool) (x : nat),
  clear passed m !! x = if decide (x ∈ passed) then Some false else m !! x.
Proof.
  induction passed as [|y passed IH]; intros m x; [done|].
  change (clear (y :: passed) m) with (clear passed (<[y := false]> m)).
  rewrite IH. destruct (decide (x ∈ passed)) as [Hin|Hin].
  - rewrite decide_True; [done | by right].
  - destruct (decide (x = y)) as [->|Hne].
    + rewrite lookup_insert_eq, decide_True; [done | left].
    + rewrite lookup_insert_ne by done. rewrite decide_False; [done|].
      rewrite elem_of_cons. intuition.
Qed.

Lemma clear_app (p q : list nat) (m : gmap nat bool) :
  clear (p ++ q) m = clear q (clear p m).
Proof. unfold clear. apply foldl_app. Qed.

Lemma ref_clear_other (passed : list nat) (m : gmap nat bool) (x : nat) :
  x ∉ passed → ref (clear passed m) x = ref m x.
Proof. intros Hx. unfold ref. by rewrite clear_lookup, decide_False. Qed.

Lemma ref_clear_passed (passed : list nat) (m : gmap nat bool) (x : nat) :
  x ∈ passed → ref (clear passed m) x = false.
Proof. intros Hx. unfold ref. by rewrite clear_lookup, decide_True. Qed.

(** Either some entry of a list has its bit clear, all before it having
    it set, or every entry has it set. *)
Lemma first_clear (m : gmap nat bool) (l : list nat) :
  (∃ pre f post, l = pre ++ f :: post
     ∧ Forall (λ x, ref m x = true) pre ∧ ref m f = false)
  ∨ Forall (λ x, ref m x = true) l.
Proof.
  induction l as [|x l IH]; [by right|].
  destruct (ref m x) eqn:Hx.
  - destruct IH as [(pre & f & post & -> & Hpre & Hf)|Hall].
    + left. exists (x :: pre), f, post. by repeat split; [constructor|].
    + right. by constructor.
  - left. by exists [], x, l.
Qed.

(** *** The loop *)

Lemma loop_hand_end (fuel : nat) l m ks :
  Victim_loop fuel (mk l m ks None) = Victim_loop fuel (mk l m ks (head l)).
Proof. destruct fuel; [done|]. simpl. by destruct (head l). Qed.

Lemma loop_hit (k : nat) l m ks f :
  ref m f = false →
  Victim_loop (S k) (mk l m ks (Some f))
  = Some (f, PinThread (mk l m ks (Some f)) f).
Proof. intros Hf. simpl. by rewrite Hf. Qed.

(** The hand sweeps a run of entries whose bits are set, clearing them. *)
Lemma loop_sweep (seg : list nat) : ∀ (a rest : list nat) m ks (k : nat),
  NoDup (a ++ seg ++ rest) →
  Forall (λ x, ref m x = true) seg →
  Victim_loop (length seg + k) (mk (a ++ seg ++ rest) m ks (head (seg ++ rest)))
  = Victim_loop k (mk (a ++ seg ++ rest) (clear seg m) ks (head rest)).
Proof.
  induction seg as [|x seg IH]; intros a rest m ks k Hnd Hset; [done|].
  apply Forall_cons in Hset as [Hx Hset].
  assert (Hx' : x ∉ seg).
  { apply NoDup_app in Hnd as (_ & _ & Hnd). by apply NoDup_cons in Hnd as [Hx' _];
    intros Hin; apply Hx', elem_of_app; left. }
  cbn [length Nat.add Victim_loop clock_hand_ head app frame_list_ ref_map_ iter_map_].
  rewrite Hx. cbn [negb].
  change (a ++ x :: seg ++ rest) with (a ++ x :: (seg ++ rest)).
  rewrite next_app by done.
  replace (a ++ x :: (seg ++ rest)) with ((a ++ [x]) ++ seg ++ rest)
    by (by rewrite <- app_assoc).
  rewrite IH; [done | by rewrite <- app_assoc |].
  rewrite Forall_forall in Hset |- *. intros y Hy.
  unfold ref. rewrite lookup_insert_ne by (intros ->; done). by apply Hset.
Qed.

(** From the hand at [h], the hand passes the entries [pre] of the ring,
    whose bits are set, and stops on the next entry [g]. *)
Lemma loop_sweep_ring (a b pre post : list nat) (h g : nat) m ks (k : nat) :
  NoDup (a ++ h :: b) →
  (h :: b) ++ a = pre ++ g :: post →
  Forall (λ x, ref m x = true) pre →
  Victim_loop (length pre + k) (mk (a ++ h :: b) m ks (Some h))
  = Victim_loop k (mk (a ++ h :: b) (clear pre m) ks (Some g)).
Proof.
  intros Hnd Hring Hset.
  assert (Hwrap : ∀ t post', pre = (h :: b) ++ t → a = t ++ g :: post' →
    Victim_loop (length pre + k) (mk (a ++ h :: b) m ks (Some h))
    = Victim_loop k (mk (a ++ h :: b) (clear pre m) ks (Some g))).
  { intros t post' -> ->.
    apply Forall_app in Hset as [Hhb Ht].
    rewrite length_app, <- Nat.add_assoc.
    pose proof (loop_sweep (h :: b) (t ++ g :: post') [] m ks (length t + k)) as H1.
    rewrite !app_nil_r in H1. cbn [head] in H1. rewrite H1 by done. clear H1.
    rewrite loop_hand_end.
    pose proof (loop_sweep t [] (g :: post' ++ h :: b) (clear (h :: b) m) ks k) as H2.
    cbn [app] in H2. rewrite <- !app_assoc in Hnd |- *. cbn [app] in Hnd |- *.
    rewrite H2; [by rewrite (clear_app (h :: b) t) | done |].
    rewrite Forall_forall in Ht |- *. intros y Hy.
    rewrite ref_clear_other; [by apply Ht|].
    apply NoDup_app in Hnd as (_ & Hdis & _). intros Hin. apply (Hdis y Hy).
    right. apply elem_of_app. by right. }
  apply app_eq_app in Hring as [t [[Hhb Ha]|[Hpre Hgp]]].
  - destruct t as [|g' t].
    + apply (Hwrap [] post); [by rewrite app_nil_r in *|done].
    + simpl in Ha. injection Ha as Hg Hp. subst g' post.
      rewrite Hhb.
      pose proof (loop_sweep pre a (g :: t) m ks k) as H1.
      replace (head (pre ++ g :: t)) with (Some h) in H1 by (by rewrite <- Hhb).
      by apply H1; [rewrite <- Hhb|].
  - by apply (Hwrap t post).
Qed.

(** *** Well-formedness is kept by every operation *)

Local Ltac wf_parts := split; [|split; [|split]]; simpl.

Lemma clock_wf_new : wf new.
Proof.
  wf_parts.
  - constructor.
  - intros f. set_solver.
  - intros f. rewrite lookup_empty. split; [by intros [x Hx] | by intros Hx; inversion Hx].
  - done.
Qed.

Lemma is_Some_insert_bit (m : gmap nat bool) (f x : nat) (b : bool) :
  is_Some (<[f := b]> m !! x) ↔ x = f ∨ is_Some (m !! x).
Proof.
  destruct (decide (f = x)) as [<-|Hne].
  - rewrite lookup_insert_eq. split; [by left | by eauto].
  - rewrite lookup_insert_ne by done. split; [by right | by intros [->|H]].
Qed.

Lemma clock_wf_Unpin r f : wf r → wf (Unpin r f).
Proof.
  intros (Hnd & Hk & Hb & Hh). unfold Unpin.
  destruct (decide (f ∈ iter_map_ r)) as [Hin|Hin]; wf_parts.
  - done.
  - done.
  - intros x. rewrite is_Some_insert_bit, Hb. split; [|by right].
    intros [->|Hx]; [by apply Hk | done].
  - done.
  - apply NoDup_app. split; [done|]. split; [|apply NoDup_singleton].
    intros x Hx Hx'. apply list_elem_of_singleton in Hx' as ->. by apply Hin, Hk.
  - intros x.
    rewrite elem_of_union, elem_of_singleton, elem_of_app, list_elem_of_singleton, Hk.
    tauto.
  - intros x.
    rewrite is_Some_insert_bit, elem_of_app, list_elem_of_singleton, Hb. tauto.
  - intros x Hx. apply elem_of_app. left. by apply Hh.
Qed.

Lemma clock_wf_PinThread r f : wf r → wf (PinThread r f).
Proof.
  intros (Hnd & Hk & Hb & Hh). unfold PinThread.
  destruct (decide (f ∈ iter_map_ r)) as [Hin|Hin]; [|done].
  wf_parts.
  - by apply NoDup_erase.
  - intros x. by rewrite elem_of_difference, elem_of_singleton, elem_of_erase, Hk.
  - intros x. rewrite elem_of_erase by done.
    destruct (decide (f = x)) as [<-|Hne].
    + rewrite lookup_delete_eq. split; [by intros [? ?] | by intros [_ ?]].
    + rewrite lookup_delete_ne, Hb by done. split; [by split | by intros [? _]].
  - intros g. rewrite elem_of_erase by done.
    destruct (decide (clock_hand_ r = Some f)) as [Heq|Hne].
    + intros Hg. by apply next_Some.
    + intros Hg. split; [by apply Hh | congruence].
Qed.

Lemma clock_wf_Pin r f : wf r → wf (Pin r f).
Proof. apply clock_wf_PinThread. Qed.

Lemma clock_wf_Victim_loop (fuel : nat) : ∀ r f r',
  wf r → Victim_loop fuel r = Some (f, r') → wf r'.
Proof.
  induction fuel as [|fuel IH]; intros [l m ks hand] f r' Hwf; [done|].
  destruct Hwf as (Hnd & Hk & Hb & Hh). simpl in *.
  destruct (match hand with None => head l | Some f0 => Some f0 end)
    as [f_id|] eqn:Hhand; [|done].
  assert (Hin : f_id ∈ l).
  { destruct hand as [h|]; [injection Hhand as ->; by apply Hh|].
    destruct l; [done|]. injection Hhand as ->. left. }
  destruct (ref m f_id) eqn:Hbit; simpl.
  - apply IH. wf_parts.
    + done.
    + done.
    + intros x. rewrite is_Some_insert_bit, Hb. split; [|by right].
      by intros [->|Hx].
    + intros g Hg. by apply next_Some in Hg as [Hg _].
  - intros [= <- <-]. apply clock_wf_PinThread. wf_parts; [done | done | done |].
    by intros g [= <-].
Qed.

Lemma clock_wf_Victim (fuel : nat) r v r' :
  wf r → Victim fuel r = Some (v, r') → wf r'.
Proof.
  intros Hwf. unfold Victim. destruct (frame_list_ r); [by intros [= <- <-]|].
  destruct (Victim_loop fuel r) as [[f r1]|] eqn:Hl; [|done].
  intros [= <- <-]. by eapply clock_wf_Victim_loop.
Qed.


Lemma reachable_wf r : reachable r → wf r.
Proof.
  induction 1 as [|r f _ IH|r f _ IH|r fuel v r' _ IH Hv].
  - apply clock_wf_new.
  - by apply clock_wf_Unpin.
  - by apply clock_wf_Pin.
  - by eapply clock_wf_Victim.
Qed.

(** *** Victim *)

Lemma PinThread_at_hand l m ks f :
  f ∈ ks →
  PinThread (mk l m ks (Some f)) f
  = mk (erase f l) (delete f m) (ks ∖ {[ f ]}) (next l f).
Proof.
  intros Hin. unfold PinThread. simpl.
  rewrite decide_True by done. by rewrite decide_True.
Qed.

(** The hand of a non-empty well-formed replacer, once wrapped. *)
Lemma hand_node r :
  wf r → frame_list_ r ≠ [] →
  ∃ h a b,
    frame_list_ r = a ++ h :: b
    ∧ ring r = (h :: b) ++ a
    ∧ ∀ fuel, Victim_loop fuel r
              = Victim_loop fuel (mk (frame_list_ r) (ref_map_ r) (iter_map_ r) (Some h)).
Proof.
  destruct r as [l m ks hand]. intros (Hnd & Hk & Hb & Hh) Hne. simpl in *.
  destruct hand as [h|].
  - destruct (split_at_node h l (Hh h eq_refl)) as [Hl [b Hb']].
    exists h, (upto_node h l), b. unfold ring. cbn [clock_hand_ frame_list_ ref_map_ iter_map_].
    rewrite Hb' in Hl |- *. by split; [|split].
  - destruct l as [|h t]; [done|].
    exists h, [], t. unfold ring. simpl. rewrite app_nil_r.
    split; [done|]. split; [done|]. intros fuel. apply loop_hand_end.
Qed.

(** C9.  CLOCK [Victim].  On an empty list it returns [false] and leaves
    the replacer as it is.  On a non-empty list of a replacer reached by
    public calls the loop returns after [length pre + 1] iterations, where [pre] is the
    run of entries the hand passes over and [f] the entry it returns: either
    [f] is the first entry of the ring, read from the hand, whose bit is
    clear, or every bit is set, the hand makes one full sweep and returns
    the entry it started from.  That is never more than two passes
    ([length pre + 1 ≤ 2 * length]).  The bits of the entries passed over,
    all set before, are cleared, and [f] leaves the list, both maps and, the
    hand moving to its successor, the hand. *)
Theorem clock_victim_second_chance (r : ClockReplacer) :
  reachable r →
  (frame_list_ r = [] → ∀ fuel, Victim fuel r = Some (None, r))
  ∧ (frame_list_ r ≠ [] →
     ∃ pre f post r',
       ((ring r = pre ++ f :: post ∧ ref (ref_map_ r) f = false)
        ∨ (pre = ring r ∧ ring r = f :: post))
       ∧ Forall (λ x, ref (ref_map_ r) x = true) pre
       ∧ (S (length pre) ≤ 2 * length (frame_list_ r))%nat
       ∧ Victim (length pre) r = None
       ∧ (∀ fuel, (length pre < fuel)%nat → Victim fuel r = Some (Some f, r'))
       ∧ frame_list_ r' = erase f (frame_list_ r)
       ∧ iter_map_ r' = iter_map_ r ∖ {[ f ]}
       ∧ ref_map_ r' = delete f (clear pre (ref_map_ r))
       ∧ clock_hand_ r' = next (frame_list_ r) f).
Proof.
  intros Hwf%reachable_wf. split.
  { intros Hnil fuel. unfold Victim. by rewrite Hnil. }
  intros Hne.
  destruct (hand_node r Hwf Hne) as (h & a & b & Hl & Hring & Hloop).
  destruct Hwf as (Hnd & Hk & Hb & Hh).
  assert (Hlen : length (ring r) = length (frame_list_ r)).
  { rewrite Hring, Hl, !length_app. lia. }
  assert (Hv : ∀ fuel, Victim fuel r
     = match Victim_loop fuel (mk (frame_list_ r) (ref_map_ r) (iter_map_ r) (Some h)) with
       | None => None | Some (f, r') => Some (Some f, r') end).
  { intros fuel. unfold Victim. rewrite Hloop. by destruct (frame_list_ r). }
  destruct (first_clear (ref_map_ r) (ring r))
    as [(pre & f & post & Hsplit & Hpre & Hf)|Hall].
  - assert (Hfk : f ∈ iter_map_ r).
    { apply Hk. rewrite Hl. rewrite Hring in Hsplit.
      assert (Hin : f ∈ (h :: b) ++ a) by (rewrite Hsplit; apply elem_of_app; right; left).
      apply elem_of_app in Hin as [Hin|Hin]; apply elem_of_app; [by right | by left]. }
    exists pre, f, post,
      (mk (erase f (frame_list_ r)) (delete f (clear pre (ref_map_ r)))
          (iter_map_ r ∖ {[ f ]}) (next (frame_list_ r) f)).
    split; [by left|]. split; [done|].
    split; [rewrite <- Hlen, Hsplit, length_app; simpl; lia|].
    rewrite Hring in Hsplit. rewrite Hl in Hnd.
    split; [|split; [|done]].
    + rewrite Hv, Hl. rewrite <- (Nat.add_0_r (length pre)).
      by rewrite (loop_sweep_ring a b pre post h f).
    + intros fuel Hfuel. rewrite Hv, Hl.
      replace fuel with (length pre + S (fuel - S (length pre)))%nat by lia.
      rewrite (loop_sweep_ring a b pre post h f) by done.
      rewrite loop_hit, PinThread_at_hand; [done | done |].
      unfold ref. rewrite clear_lookup. destruct (decide (f ∈ pre)); [done | exact Hf].
  - assert (Hhk : h ∈ iter_map_ r).
    { apply Hk. rewrite Hl. apply elem_of_app. right. left. }
    exists (ring r), h, (b ++ a),
      (mk (erase h (frame_list_ r)) (delete h (clear (ring r) (ref_map_ r)))
          (iter_map_ r ∖ {[ h ]}) (next (frame_list_ r) h)).
    split; [by right|]. split; [done|].
    split; [rewrite Hlen; destruct (frame_list_ r); [done | simpl; lia]|].
    rewrite Hring in Hall |- *. rewrite Hl in Hnd.
    apply Forall_app in Hall as [Hhb Ha].
    assert (Hsweep : ∀ k,
      Victim_loop (length ((h :: b) ++ a) + k)
        (mk (a ++ h :: b) (ref_map_ r) (iter_map_ r) (Some h))
      = Victim_loop k
        (mk (a ++ h :: b) (clear ((h :: b) ++ a) (ref_map_ r)) (iter_map_ r) (Some h))).
    { intros k. rewrite length_app, <- Nat.add_assoc.
      pose proof (loop_sweep (h :: b) a [] (ref_map_ r) (iter_map_ r) (length a + k)) as H1.
      rewrite !app_nil_r in H1. cbn [head] in H1. rewrite H1 by done. clear H1.
      rewrite loop_hand_end.
      pose proof (loop_sweep a [] (h :: b) (clear (h :: b) (ref_map_ r)) (iter_map_ r) k) as H2.
      cbn [app] in H2. rewrite H2; [by rewrite (clear_app (h :: b) a) | done |].
      rewrite Forall_forall in Ha |- *. intros y Hy.
      rewrite ref_clear_other; [by apply Ha|].
      apply NoDup_app in Hnd as (_ & Hdis & _). exact (Hdis y Hy). }
    split; [|split; [|done]].
    + rewrite Hv, Hl. rewrite <- (Nat.add_0_r (length _)). by rewrite Hsweep.
    + intros fuel Hfuel. rewrite Hv, Hl.
      replace fuel with (length ((h :: b) ++ a) + S (fuel - S (length ((h :: b) ++ a))))%nat by lia.
      rewrite Hsweep, loop_hit, PinThread_at_hand; [done | done |].
      apply ref_clear_passed. left.
Qed.

Lemma clock_victim_second_chance_witness :
  reachable (Unpin (Unpin new 0) 1)
  ∧ ∃ f r',
      Victim (2 * length (frame_list_ (Unpin (Unpin new 0) 1))) (Unpin (Unpin new 0) 1)
      = Some (Some f, r').
Proof.
  assert (Hr : reachable (Unpin (Unpin new 0) 1))
    by (do 2 apply reachable_Unpin; apply reachable_new).
  split; [exact Hr|].
  destruct (proj2 (clock_victim_second_chance _ Hr))
    as (pre & f & post & r' & _ & _ & Hlen & _ & Hfuel & _).
  { vm_compute. discriminate. }
  exists f, r'. apply Hfuel. exact Hlen.
Defined.

(** Second chance on three frames: after [Unpin] of 0, 1, 2 and of 1 again
    every bit is set; the first [Victim] sweeps the ring once, clears the
    three bits and returns 0 after four iterations, not after three; the
    next two return 1 and 2 at once. *)
Example clock_second_chance_scenario :
  let r := Unpin (Unpin (Unpin (Unpin new 0) 1) 2) 1 in
  Victim 3 r = None
  ∧ ∃ r1 r2 r3,
      Victim 4 r = Some (Some 0%nat, r1)
      ∧ Victim 1 r1 = Some (Some 1%nat, r2)
      ∧ Victim 1 r2 = Some (Some 2%nat, r3)
      ∧ Size r3 = 0%nat.
Proof. vm_compute. split; [done|]. by repeat eexists. Qed.

(** *** Further properties of the CLOCK replacer *)

(** What a [Victim] call on a non-empty well-formed replacer does, with the
    replacer it leaves written out. *)
Lemma victim_run (r : ClockReplacer) :
  wf r → frame_list_ r ≠ [] →
  ∃ pre f post,
    ((ring r = pre ++ f :: post ∧ ref (ref_map_ r) f = false)
     ∨ (pre = ring r ∧ ring r = f :: post))
    ∧ Forall (λ x, ref (ref_map_ r) x = true) pre
    ∧ (length pre ≤ length (frame_list_ r))%nat
    ∧ f ∈ frame_list_ r
    ∧ ∀ fuel, (length pre < fuel)%nat →
        Victim fuel r
        = Some (Some f,
                mk (erase f (frame_list_ r)) (delete f (clear pre (ref_map_ r)))
                   (iter_map_ r ∖ {[ f ]}) (next (frame_list_ r) f)).
Proof.
  intros Hwf Hne.
  destruct (hand_node r Hwf Hne) as (h & a & b & Hl & Hring & Hloop).
  destruct Hwf as (Hnd & Hk & Hb & Hh).
  assert (Hlen : length (ring r) = length (frame_list_ r)).
  { rewrite Hring, Hl, !length_app. lia. }
  assert (Hsub : ∀ x, x ∈ ring r → x ∈ frame_list_ r).
  { intros x. rewrite Hring, Hl, !elem_of_app. tauto. }
  assert (Hv : ∀ fuel, Victim fuel r
     = match Victim_loop fuel (mk (frame_list_ r) (ref_map_ r) (iter_map_ r) (Some h)) with
       | None => None | Some (f, r') => Some (Some f, r') end).
  { intros fuel. unfold Victim. rewrite Hloop. by destruct (frame_list_ r). }
  destruct (first_clear (ref_map_ r) (ring r))
    as [(pre & f & post & Hsplit & Hpre & Hf)|Hall].
  - assert (Hfl : f ∈ frame_list_ r).
    { apply Hsub. rewrite Hsplit. apply elem_of_app. right. left. }
    exists pre, f, post.
    split; [by left|]. split; [done|].
    split; [rewrite <- Hlen, Hsplit, length_app; simpl; lia|].
    split; [done|].
    rewrite Hring in Hsplit. rewrite Hl in Hnd.
    intros fuel Hfuel. rewrite Hv, Hl.
    replace fuel with (length pre + S (fuel - S (length pre)))%nat by lia.
    rewrite (loop_sweep_ring a b pre post h f) by done.
    rewrite loop_hit, PinThread_at_hand; [done | by apply Hk |].
    unfold ref. rewrite clear_lookup. destruct (decide (f ∈ pre)); [done | exact Hf].
  - assert (Hhl : h ∈ frame_list_ r).
    { rewrite Hl. apply elem_of_app. right. left. }
    exists (ring r), h, (b ++ a).
    split; [by right|]. split; [done|].
    split; [by rewrite Hlen|]. split; [done|].
    rewrite Hring in Hall |- *. rewrite Hl in Hnd.
    apply Forall_app in Hall as [Hhb Ha].
    intros fuel Hfuel. rewrite Hv, Hl.
    rewrite length_app in Hfuel.
    replace fuel with
      (length (h :: b) + (length a + S (fuel - S (length (h :: b) + length a))))%nat
      by lia.
    pose proof (loop_sweep (h :: b) a [] (ref_map_ r) (iter_map_ r)) as H1.
    rewrite !app_nil_r in H1. cbn [head] in H1. rewrite H1 by done. clear H1.
    rewrite loop_hand_end.
    pose proof (loop_sweep a [] (h :: b) (clear (h :: b) (ref_map_ r)) (iter_map_ r)) as H2.
    cbn [app] in H2. rewrite H2; [| done |].
    + rewrite <- (clear_app (h :: b) a). cbn [head].
      rewrite loop_hit, PinThread_at_hand; [done | by apply Hk |].
      apply ref_clear_passed. left.
    + rewrite Forall_forall in Ha |- *. intros y Hy.
      rewrite ref_clear_other; [by apply Ha|].
      apply NoDup_app in Hnd as (_ & Hdis & _). exact (Hdis y Hy).
Qed.

(** X7.  In every CLOCK replacer reached by public calls the list holds
    each evictable frame once, [iter_map_] and [ref_map_] have exactly the
    frames of the list as keys, the hand is [end()] or a node of the list,
    and [Size] is the number of evictable frames. *)
Theorem clock_size_counts_evictable (r : ClockReplacer) :
  reachable r →
  NoDup (frame_list_ r)
  ∧ (∀ f, f ∈ iter_map_ r ↔ f ∈ frame_list_ r)
  ∧ (∀ f, is_Some (ref_map_ r !! f) ↔ f ∈ frame_list_ r)
  ∧ (∀ f, clock_hand_ r = Some f → f ∈ frame_list_ r)
  ∧ Size r = size (iter_map_ r).
Proof.
  intros (Hnd & Hk & Hb & Hh)%reachable_wf.
  split; [done|]. split; [done|]. split; [done|]. split; [done|].
  unfold Size. rewrite <- (size_list_to_set (C := gset nat)) by done.
  f_equal. apply set_eq. intros x. by rewrite elem_of_list_to_set, Hk.
Qed.

Lemma clock_size_counts_evictable_witness :
  reachable (Pin (Unpin (Unpin new 3) 5) 3)
  ∧ Size (Pin (Unpin (Unpin new 3) 5) 3)
    = size (iter_map_ (Pin (Unpin (Unpin new 3) 5) 3)).
Proof.
  assert (H : reachable (Pin (Unpin (Unpin new 3) 5) 3))
    by (apply reachable_Pin; do 2 apply reachable_Unpin; apply reachable_new).
  split; [exact H|].
  exact (proj2 (proj2 (proj2 (proj2 (clock_size_counts_evictable _ H))))).
Defined.

(** X8.  [Victim] on a non-empty reachable replacer, with fuel for two
    passes, returns a frame of the list; that frame leaves the list, the
    key set and the reference bits, the other frames keep their order, and
    [Size] drops by one. *)
Theorem clock_victim_takes_one (r : ClockReplacer) :
  reachable r → frame_list_ r ≠ [] →
  ∃ f r',
    Victim (2 * Size r) r = Some (Some f, r')
    ∧ f ∈ frame_list_ r
    ∧ frame_list_ r' = erase f (frame_list_ r)
    ∧ (f ∉ frame_list_ r')
    ∧ (f ∉ iter_map_ r')
    ∧ ref_map_ r' !! f = None
    ∧ S (Size r') = Size r.
Proof.
  intros Hwf%reachable_wf Hne.
  destruct (victim_run r Hwf Hne) as (pre & f & post & _ & _ & Hlen & Hf & Hfuel).
  destruct Hwf as (Hnd & _).
  eexists f, _. split.
  { apply Hfuel. unfold Size. destruct (frame_list_ r); [done|]. simpl in *. lia. }
  simpl. split; [done|]. split; [done|].
  split; [rewrite elem_of_erase by done; by intros [_ ?]|].
  split; [apply keys_remove_not_elem|]. split; [apply lookup_delete_eq|].
  unfold Size. simpl. by apply length_erase.
Qed.

Lemma clock_victim_takes_one_witness :
  reachable (Unpin (Unpin new 0) 1)
  ∧ ∃ f r', Victim (2 * Size (Unpin (Unpin new 0) 1)) (Unpin (Unpin new 0) 1)
            = Some (Some f, r').
Proof.
  assert (Hr : reachable (Unpin (Unpin new 0) 1))
    by (do 2 apply reachable_Unpin; apply reachable_new).
  split; [exact Hr|].
  destruct (clock_victim_takes_one _ Hr) as (f & r' & Hv & _).
  { vm_compute. discriminate. }
  by exists f, r'.
Defined.

Lemma elem_of_ring (r : ClockReplacer) (x : nat) :
  wf r → x ∈ ring r ↔ x ∈ frame_list_ r.
Proof.
  intros Hwf. destruct (decide (frame_list_ r = [])) as [Hnil|Hne].
  - unfold ring. rewrite Hnil. by destruct (clock_hand_ r).
  - destruct (hand_node r Hwf Hne) as (h & a & b & Hl & Hring & _).
    rewrite Hring, Hl, !elem_of_app. tauto.
Qed.

Lemma drain_all (n : nat) : ∀ (r : ClockReplacer) (fuel : nat),
  wf r → length (frame_list_ r) = n → (n < fuel)%nat →
  ∃ fs r', drain fuel n r = Some (fs, r')
           ∧ fs ≡ₚ frame_list_ r ∧ frame_list_ r' = [].
Proof.
  induction n as [|n IH]; intros r fuel Hwf Hn Hfuel.
  - exists [], r. apply nil_length_inv in Hn. by rewrite Hn.
  - assert (Hne : frame_list_ r ≠ []) by (by destruct (frame_list_ r)).
    destruct (victim_run r Hwf Hne) as (pre & f & post & _ & _ & Hlen & Hf & Hv).
    specialize (Hv fuel ltac:(lia)).
    pose proof (clock_wf_Victim _ _ _ _ Hwf Hv) as Hwf1.
    destruct (IH _ fuel Hwf1) as (fs & r' & Hd & Hperm & Hnil); [|lia|].
    { simpl. pose proof (length_erase f _ Hf). lia. }
    exists (f :: fs), r'. cbn [drain]. rewrite Hv, Hd.
    split; [done|]. split; [|done].
    simpl in Hperm. rewrite Hperm. symmetry. by apply erase_Permutation.
Qed.

(** X9.  Emptying the replacer: on a reachable replacer, [Size] successive
    [Victim] calls, each with fuel for more than one pass, all succeed; they
    return every evictable frame exactly once and leave the list empty. *)
Theorem clock_drain_returns_every_frame (r : ClockReplacer) (fuel : nat) :
  reachable r → (Size r < fuel)%nat →
  ∃ fs r', drain fuel (Size r) r = Some (fs, r')
           ∧ fs ≡ₚ frame_list_ r ∧ Size r' = 0%nat.
Proof.
  intros Hwf%reachable_wf Hfuel.
  destruct (drain_all (Size r) r fuel Hwf eq_refl Hfuel) as (fs & r' & Hd & Hp & Hnil).
  exists fs, r'. split; [done|]. split; [done|]. unfold Size. by rewrite Hnil.
Qed.

Lemma clock_drain_returns_every_frame_witness :
  reachable (Unpin (Unpin (Unpin new 4) 2) 4)
  ∧ (Size (Unpin (Unpin (Unpin new 4) 2) 4) < 3)%nat
  ∧ ∃ fs r', drain 3 (Size (Unpin (Unpin (Unpin new 4) 2) 4))
               (Unpin (Unpin (Unpin new 4) 2) 4) = Some (fs, r').
Proof.
  assert (Hr : reachable (Unpin (Unpin (Unpin new 4) 2) 4))
    by (do 3 apply reachable_Unpin; apply reachable_new).
  assert (Hs : (Size (Unpin (Unpin (Unpin new 4) 2) 4) < 3)%nat)
    by (vm_compute; lia).
  split; [exact Hr|]. split; [exact Hs|].
  destruct (clock_drain_returns_every_frame _ 3%nat Hr Hs) as (fs & r' & Hd & _).
  by exists fs, r'.
Defined.

(** X10.  A pinned frame is never the victim: after [Pin] of [f] the frame
    is not on the list while every other frame still is, and when the list
    is not empty the next [Victim] returns a frame other than [f]. *)
Theorem clock_pinned_frame_not_victim (r : ClockReplacer) (f : nat) :
  reachable r →
  (f ∉ frame_list_ (Pin r f))
  ∧ (∀ g, g ≠ f → (g ∈ frame_list_ (Pin r f) ↔ g ∈ frame_list_ r))
  ∧ (frame_list_ (Pin r f) ≠ [] →
     ∃ g r', Victim (2 * Size (Pin r f)) (Pin r f) = Some (Some g, r')
             ∧ g ≠ f ∧ g ∈ frame_list_ r).
Proof.
  intros Hr. pose proof (reachable_wf _ Hr) as (Hnd & Hk & _).
  assert (Hl : frame_list_ (Pin r f) = erase f (frame_list_ r)).
  { unfold Pin, PinThread. destruct (decide (f ∈ iter_map_ r)) as [|Hn]; [done|].
    symmetry. apply erase_absent. by rewrite <- Hk. }
  assert (Hin : ∀ g, g ∈ frame_list_ (Pin r f) ↔ g ∈ frame_list_ r ∧ g ≠ f).
  { intros g. by rewrite Hl, elem_of_erase. }
  split; [rewrite Hin; by intros [_ ?]|].
  split; [intros g Hg; rewrite Hin; tauto|].
  intros Hne.
  pose proof (reachable_wf _ (reachable_Pin _ f Hr)) as Hwf'.
  destruct (victim_run _ Hwf' Hne) as (pre & g & post & _ & _ & Hlen & Hg & Hv).
  eexists g, _. split.
  { apply Hv. unfold Size. destruct (frame_list_ (Pin r f)); [done|]. simpl in *. lia. }
  apply Hin in Hg. tauto.
Qed.

Lemma clock_pinned_frame_not_victim_witness :
  reachable (Unpin (Unpin new 1) 2)
  ∧ 1%nat ∉ frame_list_ (Pin (Unpin (Unpin new 1) 2) 1).
Proof.
  assert (H : reachable (Unpin (Unpin new 1) 2))
    by (do 2 apply reachable_Unpin; apply reachable_new).
  split; [exact H|].
  exact (proj1 (clock_pinned_frame_not_victim _ 1%nat H)).
Defined.

(** X11.  Second chance: when some evictable frame has its reference bit
    clear, the victim is a frame whose bit was clear, and every frame whose
    bit was set stays on the list. *)
Theorem clock_set_bit_survives (r : ClockReplacer) (x : nat) :
  reachable r → x ∈ frame_list_ r → ref (ref_map_ r) x = false →
  ∃ f r',
    Victim (2 * Size r) r = Some (Some f, r')
    ∧ ref (ref_map_ r) f = false
    ∧ ∀ g, g ∈ frame_list_ r → ref (ref_map_ r) g = true → g ∈ frame_list_ r'.
Proof.
  intros Hwf%reachable_wf Hx Hbit.
  assert (Hne : frame_list_ r ≠ []) by (intros Hnil; rewrite Hnil in Hx; inversion Hx).
  destruct (victim_run r Hwf Hne) as (pre & f & post & Hcase & Hpre & Hlen & Hf & Hv).
  assert (Hclear : ref (ref_map_ r) f = false).
  { destruct Hcase as [[_ ?]|[-> _]]; [done|].
    rewrite Forall_forall in Hpre. apply (elem_of_ring r x Hwf) in Hx.
    rewrite (Hpre x Hx) in Hbit. discriminate. }
  eexists f, _. split.
  { apply Hv. unfold Size. destruct (frame_list_ r); [done|]. simpl in *. lia. }
  split; [done|]. intros g Hg Hset. simpl.
  destruct Hwf as (Hnd & _). rewrite elem_of_erase by done.
  split; [done|]. intros ->. rewrite Hset in Hclear. discriminate.
Qed.

Lemma clock_set_bit_survives_witness :
  let r := match Victim 4 (Unpin (Unpin new 0) 1) with
           | Some (_, r1) => Unpin r1 0
           | None => new
           end in
  reachable r ∧ 1%nat ∈ frame_list_ r ∧ ref (ref_map_ r) 1 = false
  ∧ ∃ f r', Victim (2 * Size r) r = Some (Some f, r')
            ∧ ref (ref_map_ r) f = false.
Proof.
  intros r.
  assert (Hr : reachable r).
  { unfold r. destruct (Victim 4 (Unpin (Unpin new 0) 1)) as [[v r1]|] eqn:E.
    - apply reachable_Unpin. eapply reachable_Victim; [|exact E].
      do 2 apply reachable_Unpin. apply reachable_new.
    - apply reachable_new. }
  assert (Hx : 1%nat ∈ frame_list_ r)
    by (apply (bool_decide_unpack _); vm_compute; exact I).
  assert (Hb : ref (ref_map_ r) 1 = false) by (vm_compute; reflexivity).
  split; [exact Hr|]. split; [exact Hx|]. split; [exact Hb|].
  destruct (clock_set_bit_survives r 1%nat Hr Hx Hb) as (f & r' & Hv & Hf & _).
  by exists f, r'.
Defined.

(** X12.  [Unpin] of a frame that is not evictable, followed by [Pin] of
    it, gives back the replacer as it was, hand included. *)
Theorem clock_unpin_pin_round_trip (r : ClockReplacer) (f : nat) :
  reachable r → f ∉ frame_list_ r → Pin (Unpin r f) f = r.
Proof.
  intros (Hnd & Hk & Hb & Hh)%reachable_wf Hf.
  destruct r as [l m ks hand]. simpl in *.
  assert (Hks : f ∉ ks) by (by rewrite Hk).
  assert (Hm : m !! f = None).
  { apply eq_None_not_Some. by rewrite Hb. }
  unfold Unpin. simpl. rewrite decide_False by done.
  unfold Pin, PinThread. simpl. rewrite decide_True by apply keys_add_elem.
  rewrite decide_False by (intros Heq; by apply Hf, Hh).
  rewrite erase_snoc by done. f_equal.
  - by rewrite delete_insert_eq, delete_id.
  - by apply keys_add_remove.
Qed.

Lemma clock_unpin_pin_round_trip_witness :
  reachable (Unpin new 2) ∧ (7%nat ∉ frame_list_ (Unpin new 2))
  ∧ Pin (Unpin (Unpin new 2) 7) 7 = Unpin new 2.
Proof.
  assert (H : reachable (Unpin new 2)) by (apply reachable_Unpin, reachable_new).
  assert (H' : 7%nat ∉ frame_list_ (Unpin new 2))
    by (apply (bool_decide_unpack _); vm_compute; exact I).
  split; [exact H|]. split; [exact H'|].
  exact (clock_unpin_pin_round_trip _ 7%nat H H').
Defined.

End ClockFacts.

(** ** Buffer pool manager *)
Module BpmFacts.
Import Bpm.

Section WithPageSize.
Variable PAGE_SIZE : nat.

Local Abbreviation PickVictimFrame := (Bpm.PickVictimFrame PAGE_SIZE).
Local Abbreviation FetchPageImpl := (Bpm.FetchPageImpl PAGE_SIZE).
Local Abbreviation UnpinPageImpl := (Bpm.UnpinPageImpl PAGE_SIZE).
Local Abbreviation FlushPageImpl := (Bpm.FlushPageImpl PAGE_SIZE).
Local Abbreviation NewPageImpl := (Bpm.NewPageImpl PAGE_SIZE).
Local Abbreviation DeletePageImpl := (Bpm.DeletePageImpl PAGE_SIZE).
Local Abbreviation step := (Bpm.step PAGE_SIZE).
Local Abbreviation run := (Bpm.run PAGE_SIZE).
Local Abbreviation new := (Bpm.new PAGE_SIZE).
Local Abbreviation page_at := (Bpm.page_at PAGE_SIZE).
Local Abbreviation within_contract := (Bpm.within_contract PAGE_SIZE).
Local Abbreviation disciplined := (Bpm.disciplined PAGE_SIZE).

(** *** The replacer seen from the manager *)

Lemma erase_subseteq (f x : nat) (l : list nat) : x ∈ erase f l → x ∈ l.
Proof.
  induction l as [|y l IH]; simpl; [done|].
  destruct (decide (y = f)); [by right|].
  rewrite !elem_of_cons. intuition.
Qed.

Lemma lru_Victim_Some r f r' :
  LRU.Victim r = (Some f, r') →
  f ∈ LRU.frame_list_ r ∧ ∀ x, x ∈ LRU.frame_list_ r' → x ∈ LRU.frame_list_ r.
Proof.
  destruct r as [l ks]. destruct l as [|y l0 _] using rev_ind; [done|].
  rewrite LRUFacts.lru_Victim_snoc. intros [= <- <-]. simpl. split.
  - apply elem_of_app. right. left.
  - intros x Hx. apply elem_of_app. by left.
Qed.

Lemma lru_Victim_None r r' : LRU.Victim r = (None, r') → r' = r.
Proof.
  unfold LRU.Victim. destruct (last (LRU.frame_list_ r)); [done|]. by intros [= <-].
Qed.

Lemma lru_Pin_subseteq r f x :
  x ∈ LRU.frame_list_ (LRU.Pin r f) → x ∈ LRU.frame_list_ r.
Proof.
  unfold LRU.Pin. destruct (decide (f ∈ LRU.iter_map_ r)); [|done].
  simpl. apply erase_subseteq.
Qed.

Lemma lru_Unpin_elem r f x :
  x ∈ LRU.frame_list_ (LRU.Unpin r f) → x = f ∨ x ∈ LRU.frame_list_ r.
Proof.
  unfold LRU.Unpin. destruct (decide (f ∈ LRU.iter_map_ r)); [by right|].
  simpl. by rewrite elem_of_cons.
Qed.

(** *** Frame ids stay inside the frame array *)

Lemma in_range_new (n : nat) (d : DiskManager) : in_range (new n d).
Proof.
  unfold in_range. simpl. rewrite length_replicate.
  split; [done|]. split; [apply LRUFacts.lru_wf_new|].
  split; [|split; [by constructor|by intros p f; rewrite lookup_empty]].
  apply Forall_forall. intros f Hf. apply elem_of_seq in Hf. lia.
Qed.

Lemma in_range_upd_page s f g : in_range s → in_range (upd_page f g s).
Proof.
  intros (Hlen & Hwf & Hfree & Hrep & Htab). unfold in_range. simpl.
  by rewrite length_alter.
Qed.

Lemma in_range_PickVictimFrame s v s' :
  in_range s → PickVictimFrame s = (v, s') →
  in_range s' ∧ pool_size_ s' = pool_size_ s
  ∧ ∀ f, v = Some f → (f < pool_size_ s)%nat.
Proof.
  intros (Hlen & Hwf & Hfree & Hrep & Htab). unfold Bpm.PickVictimFrame.
  destruct (free_list_ s) as [|f0 rest] eqn:Hfl.
  - destruct (LRU.Victim (replacer_ s)) as [[f|] r] eqn:Hv.
    + destruct (lru_Victim_Some _ _ _ Hv) as [Hf Hsub].
      pose proof (LRUFacts.lru_wf_Victim _ Hwf) as Hwf'. rewrite Hv in Hwf'.
      rewrite Forall_forall in Hrep.
      intros [= <- <-]. split; [|split; [by destruct (is_dirty_ _)|]].
      * unfold in_range. destruct (is_dirty_ _); simpl; rewrite Hfl;
          (split; [done|]; split; [done|]; split; [done|]; split;
           [apply Forall_forall; auto|]);
          intros p f'; rewrite lookup_delete; case_decide; [done|apply Htab |done|apply Htab].
      * intros f' [= <-]. auto.
    + apply lru_Victim_None in Hv as ->. intros [= <- <-].
      split; [|split; [done|done]]. unfold in_range. simpl. by rewrite Hfl.
  - intros [= <- <-]. apply Forall_cons in Hfree as [Hf0 Hrest].
    split; [done|]. split; [done|]. by intros f [= <-].
Qed.


Lemma in_range_install s f p :
  in_range s → (f < pool_size_ s)%nat →
  in_range (set_page_table (<[p := f]> (page_table_ s)) s).
Proof.
  intros (Hlen & Hwf & Hfree & Hrep & Htab) Hf. unfold in_range. simpl.
  split; [done|]. split; [done|]. split; [done|]. split; [done|].
  intros q g. rewrite lookup_insert. case_decide; [by intros [= <-] | apply Htab].
Qed.

(** [in_range] reads the length of the frame array only, not the frames,
    and does not read the page store. *)
Lemma in_range_ext s s' :
  pool_size_ s' = pool_size_ s →
  length (pages_ s') = length (pages_ s) →
  replacer_ s' = replacer_ s →
  free_list_ s' = free_list_ s →
  page_table_ s' = page_table_ s →
  in_range s → in_range s'.
Proof.
  intros Hps Hlen Hr Hf Ht. unfold in_range. by rewrite Hps, Hlen, Hr, Hf, Ht.
Qed.

Lemma in_range_step s c : in_range s → in_range (step s c).2.
Proof.
  intros Hs. pose proof Hs as (Hlen & Hwf & Hfree & Hrep & Htab).
  destruct c as [p|p d|p| | |p]; simpl.
  - (* Fetch *)
    unfold Bpm.FetchPageImpl. destruct (page_table_ s !! p) as [f|] eqn:Hp.
    + destruct (0 <? _); simpl; [done|].
      unfold in_range. simpl. split; [done|]. split; [by apply LRUFacts.lru_wf_Pin|].
      split; [done|]. split; [|done].
      rewrite Forall_forall in Hrep |- *. intros x Hx. by eapply Hrep, lru_Pin_subseteq.
    + destruct (PickVictimFrame s) as [[f|] s1] eqn:Hv;
        destruct (in_range_PickVictimFrame _ _ _ Hs Hv) as (Hs1 & Hps & Hf); [|done].
      simpl.
      apply (in_range_ext (set_page_table (<[p := f]> (page_table_ s1)) s1));
        simpl; rewrite ?length_alter; try done.
      apply in_range_install; [done|]. rewrite Hps. by apply Hf.
  - (* Unpin *)
    unfold Bpm.UnpinPageImpl. destruct (page_table_ s !! p) as [f|] eqn:Hp; [|done].
    simpl. apply in_range_upd_page.
    destruct (_ <=? 0); [|by apply in_range_upd_page].
    unfold in_range. simpl. rewrite length_alter.
    split; [done|]. split; [by apply LRUFacts.lru_wf_Unpin|].
    split; [done|]. split; [|done].
    rewrite Forall_forall in Hrep |- *. intros x Hx.
    apply lru_Unpin_elem in Hx as [->|Hx]; [by eapply Htab | by apply Hrep].
  - (* Flush *)
    unfold Bpm.FlushPageImpl. destruct (page_table_ s !! p) as [f|] eqn:Hp; [|done].
    simpl. by apply in_range_upd_page.
  - done.
  - (* NewPage *)
    unfold Bpm.NewPageImpl. destruct (AllPagesPinned _ s); [done|].
    destruct (PickVictimFrame s) as [[f|] s1] eqn:Hv;
      destruct (in_range_PickVictimFrame _ _ _ Hs Hv) as (Hs1 & Hps & Hf); [|done].
    simpl.
    apply (in_range_ext (set_page_table (<[next_page_id_ (disk_manager_ s1) := f]> (page_table_ s1)) s1));
      simpl; rewrite ?length_alter; try done.
    apply in_range_install; [done|]. rewrite Hps. by apply Hf.
  - (* DeletePage *)
    unfold Bpm.DeletePageImpl. destruct (page_table_ s !! p) as [f|] eqn:Hp; [|done].
    destruct (0 <? _); [done|]. simpl.
    unfold in_range. simpl. rewrite length_alter.
    split; [done|]. split; [done|].
    split; [apply Forall_app; split; [done|]; repeat constructor; by eapply Htab|].
    split; [done|].
    intros q g. rewrite lookup_delete. case_decide; [done | apply Htab].
Qed.

Lemma reachable_in_range (n : nat) (d : DiskManager) (cs : list call) :
  in_range (run (new n d) cs).
Proof.
  unfold Bpm.run. generalize (in_range_new n d). generalize (new n d).
  induction cs as [|c cs IH]; intros s Hs; [done|].
  simpl. apply IH. by apply in_range_step.
Qed.


(** *** What [PickVictimFrame] leaves alone *)

Lemma PickVictimFrame_pages s : pages_ (PickVictimFrame s).2 = pages_ s.
Proof.
  unfold Bpm.PickVictimFrame. destruct (free_list_ s); [|done].
  destruct (LRU.Victim (replacer_ s)) as [[f|] r]; [|done].
  by destruct (is_dirty_ _).
Qed.

Lemma PickVictimFrame_free_list s x :
  x ∈ free_list_ (PickVictimFrame s).2 → x ∈ free_list_ s.
Proof.
  unfold Bpm.PickVictimFrame. destruct (free_list_ s) as [|f0 rest] eqn:Hfl.
  - destruct (LRU.Victim (replacer_ s)) as [[f|] r]; simpl; [|by rewrite Hfl].
    destruct (is_dirty_ _); simpl; by rewrite Hfl.
  - simpl. by right.
Qed.

(** *** Reading a frame after a write through its pointer *)

Lemma page_at_upd_page s f g :
  (f < length (pages_ s))%nat →
  page_at (upd_page f g s) f = g (page_at s f).
Proof.
  intros Hf. unfold Bpm.page_at, upd_page. simpl.
  rewrite list_lookup_alter_eq.
  destruct (lookup_lt_is_Some_2 _ _ Hf) as [pg ->]. done.
Qed.

(** C10.  A [Fetch] of a page that is in the page table returns its frame
    and reads nothing from the page store: the frame array (payload bytes,
    dirty flags, page ids, and the pin counts as well), the page table, the
    free list and the page store with its log are unchanged; the replacer
    alone may change, by a [Pin] of that frame. *)
Theorem fetch_hit_frame (s : BufferPoolManager) (p : Z) (f : nat) :
  page_table_ s !! p = Some f →
  (FetchPageImpl s p).1 = Some f
  ∧ pages_ (FetchPageImpl s p).2 = pages_ s
  ∧ page_table_ (FetchPageImpl s p).2 = page_table_ s
  ∧ free_list_ (FetchPageImpl s p).2 = free_list_ s
  ∧ disk_manager_ (FetchPageImpl s p).2 = disk_manager_ s
  ∧ reads (disk_manager_ (FetchPageImpl s p).2) = reads (disk_manager_ s)
  ∧ pool_size_ (FetchPageImpl s p).2 = pool_size_ s
  ∧ (replacer_ (FetchPageImpl s p).2 = replacer_ s
     ∨ replacer_ (FetchPageImpl s p).2 = LRU.Pin (replacer_ s) f).
Proof.
  intros Hp. unfold Bpm.FetchPageImpl. rewrite Hp.
  destruct (0 <? pin_count_ (page_at s f)); simpl; repeat split; auto.
Qed.

(** *** Pin counts *)

Lemma int_wrap_range (z : Z) : INT_MIN ≤ int_wrap z ≤ INT_MAX.
Proof.
  unfold int_wrap, INT_MIN, INT_MAX.
  pose proof (Z.mod_pos_bound (z + 2147483648) 4294967296 ltac:(lia)). lia.
Qed.

Lemma int_wrap_id (z : Z) : INT_MIN ≤ z ≤ INT_MAX → int_wrap z = z.
Proof.
  unfold int_wrap, INT_MIN, INT_MAX. intros Hz.
  rewrite Z.mod_small by lia. lia.
Qed.

Lemma int_wrap_below_min : int_wrap (INT_MIN - 1) = INT_MAX.
Proof. reflexivity. Qed.

(** Every pin count is an [int], whatever the callers do. *)
Lemma int_range_step s c :
  Forall (λ pg, INT_MIN ≤ pin_count_ pg ≤ INT_MAX) (pages_ s) →
  Forall (λ pg, INT_MIN ≤ pin_count_ pg ≤ INT_MAX) (pages_ (step s c).2).
Proof.
  intros Hs. destruct c as [p|p d|p| | |p]; simpl.
  - unfold Bpm.FetchPageImpl. destruct (page_table_ s !! p) as [f|].
    + by destruct (0 <? _).
    + pose proof (PickVictimFrame_pages s) as Hpg.
      destruct (PickVictimFrame s) as [[f|] s1]; simpl in *; rewrite Hpg; [|done].
      repeat (apply Forall_alter; [|by intros; unfold INT_MIN, INT_MAX in *; simpl; lia]).
      done.
  - unfold Bpm.UnpinPageImpl.
    destruct (page_table_ s !! p) as [f|]; [|done]. simpl.
    apply Forall_alter; [|by intros].
    assert (Hdec : Forall (λ pg, INT_MIN ≤ pin_count_ pg ≤ INT_MAX)
              (alter (λ pg, set_pin_count (int_wrap (pin_count_ pg - 1)) pg)
                     f (pages_ s))).
    { apply Forall_alter; [done|]. intros pg _ _. simpl. apply int_wrap_range. }
    by destruct (_ <=? 0).
  - unfold Bpm.FlushPageImpl. destruct (page_table_ s !! p) as [f|]; [|done].
    simpl. by apply Forall_alter.
  - done.
  - unfold Bpm.NewPageImpl. destruct (AllPagesPinned _ s); [done|].
    pose proof (PickVictimFrame_pages s) as Hpg.
    destruct (PickVictimFrame s) as [[f|] s1]; simpl in *; rewrite Hpg; [|done].
    repeat (apply Forall_alter; [|by intros; unfold INT_MIN, INT_MAX in *; simpl; lia]).
    done.
  - unfold Bpm.DeletePageImpl. destruct (page_table_ s !! p) as [f|]; [|done].
    destruct (0 <? _); [done|]. simpl. by apply Forall_alter.
Qed.

Lemma int_range_run (cs : list call) : ∀ s,
  Forall (λ pg, INT_MIN ≤ pin_count_ pg ≤ INT_MAX) (pages_ s) →
  Forall (λ pg, INT_MIN ≤ pin_count_ pg ≤ INT_MAX) (pages_ (run s cs)).
Proof.
  induction cs as [|c cs IH]; intros s Hs; [done|].
  change (run s (c :: cs)) with (run (step s c).2 cs).
  apply IH. by apply int_range_step.
Qed.

Lemma pin_count_step s c :
  within_contract s c = true →
  Forall (λ pg, 0 ≤ pin_count_ pg ≤ INT_MAX) (pages_ s) →
  Forall (λ pg, 0 ≤ pin_count_ pg ≤ INT_MAX) (pages_ (step s c).2).
Proof.
  intros Hc Hs. destruct c as [p|p d|p| | |p]; simpl.
  - unfold Bpm.FetchPageImpl. destruct (page_table_ s !! p) as [f|].
    + by destruct (0 <? _).
    + pose proof (PickVictimFrame_pages s) as Hpg.
      destruct (PickVictimFrame s) as [[f|] s1]; simpl in *; rewrite Hpg; [|done].
      repeat (apply Forall_alter; [|by intros; unfold INT_MAX in *; simpl; lia]). done.
  - unfold Bpm.UnpinPageImpl. simpl in Hc.
    destruct (page_table_ s !! p) as [f|]; [|done]. simpl.
    apply Forall_alter; [|by intros].
    assert (Hdec : Forall (λ pg, 0 ≤ pin_count_ pg ≤ INT_MAX)
              (alter (λ pg, set_pin_count (int_wrap (pin_count_ pg - 1)) pg)
                     f (pages_ s))).
    { apply Forall_alter; [done|]. intros pg Hpg Hb. simpl.
      unfold Bpm.page_at in Hc. rewrite Hpg in Hc. simpl in Hc.
      apply Z.ltb_lt in Hc.
      rewrite int_wrap_id by (unfold INT_MIN, INT_MAX in *; lia). lia. }
    by destruct (_ <=? 0).
  - unfold Bpm.FlushPageImpl. destruct (page_table_ s !! p) as [f|]; [|done].
    simpl. by apply Forall_alter.
  - done.
  - unfold Bpm.NewPageImpl. destruct (AllPagesPinned _ s); [done|].
    pose proof (PickVictimFrame_pages s) as Hpg.
    destruct (PickVictimFrame s) as [[f|] s1]; simpl in *; rewrite Hpg; [|done].
    repeat (apply Forall_alter; [|by intros; unfold INT_MAX in *; simpl; lia]). done.
  - unfold Bpm.DeletePageImpl. destruct (page_table_ s !! p) as [f|]; [|done].
    destruct (0 <? _); [done|]. simpl. by apply Forall_alter.
Qed.

Lemma pin_count_run (cs : list call) : ∀ s,
  disciplined s cs = true →
  Forall (λ pg, 0 ≤ pin_count_ pg ≤ INT_MAX) (pages_ s) →
  Forall (λ pg, 0 ≤ pin_count_ pg ≤ INT_MAX) (pages_ (run s cs)).
Proof.
  induction cs as [|c cs IH]; intros s Hd Hs; [done|].
  simpl in Hd. apply andb_prop in Hd as [Hc Hd].
  change (run s (c :: cs)) with (run (step s c).2 cs).
  apply IH; [done|]. by apply pin_count_step.
Qed.

(** C7, as amended.  In every reachable state the pin count of a frame is
    a 32-bit [int], and an [Unpin] of a resident page returns [true] and
    decrements the pin count of its frame with no assertion and no clamp at
    zero: the count drops by exactly one, from zero to -1 as from anywhere
    else above [INT_MIN], and at [INT_MIN] the 32-bit decrement wraps to
    [INT_MAX].  Pin counts are non-negative in the states reached by
    sequences of calls that keep the caller contract, that is, in which a
    resident page is unpinned only while its pin count is positive. *)
Theorem unpin_decrements_without_guard
    (n : nat) (d : DiskManager) (cs : list call) :
  (∀ p b f,
     page_table_ (run (new n d) cs) !! p = Some f →
     (UnpinPageImpl (run (new n d) cs) p b).1 = true
     ∧ INT_MIN ≤ pin_count_ (page_at (run (new n d) cs) f) ≤ INT_MAX
     ∧ pin_count_ (page_at (UnpinPageImpl (run (new n d) cs) p b).2 f)
       = (if pin_count_ (page_at (run (new n d) cs) f) =? INT_MIN
          then INT_MAX
          else pin_count_ (page_at (run (new n d) cs) f) - 1))
  ∧ (disciplined (new n d) cs = true →
     Forall (λ pg, 0 ≤ pin_count_ pg) (pages_ (run (new n d) cs))).
Proof.
  split.
  - intros p b f Hp.
    destruct (reachable_in_range n d cs) as (Hlen & _ & _ & _ & Htab).
    assert (Hf : (f < length (pages_ (run (new n d) cs)))%nat)
      by (rewrite Hlen; by eapply Htab).
    assert (Hint : INT_MIN ≤ pin_count_ (page_at (run (new n d) cs) f) ≤ INT_MAX).
    { assert (Hall : Forall (λ pg, INT_MIN ≤ pin_count_ pg ≤ INT_MAX)
                       (pages_ (run (new n d) cs))).
      { apply int_range_run. simpl. apply Forall_replicate.
        unfold INT_MIN, INT_MAX. simpl. lia. }
      rewrite Forall_lookup in Hall. unfold Bpm.page_at.
      destruct (lookup_lt_is_Some_2 _ _ Hf) as [pg Hpg].
      rewrite Hpg. simpl. by eapply Hall. }
    assert (Hwrap : int_wrap (pin_count_ (page_at (run (new n d) cs) f) - 1)
                    = (if pin_count_ (page_at (run (new n d) cs) f) =? INT_MIN
                       then INT_MAX
                       else pin_count_ (page_at (run (new n d) cs) f) - 1)).
    { destruct (Z.eqb_spec (pin_count_ (page_at (run (new n d) cs) f)) INT_MIN)
        as [->|Hne]; [apply int_wrap_below_min|].
      apply int_wrap_id. unfold INT_MIN, INT_MAX in *. lia. }
    unfold Bpm.UnpinPageImpl. rewrite Hp. split; [done|]. split; [done|].
    rewrite <- Hwrap. simpl.
    set (s1 := upd_page f _ (run (new n d) cs)).
    assert (Hf1 : (f < length (pages_ s1))%nat) by (simpl; by rewrite length_alter).
    destruct (_ <=? 0).
    + rewrite (page_at_upd_page (set_replacer _ s1)) by done.
      unfold s1. change (page_at (set_replacer ?r ?s) f) with (page_at s f).
      by rewrite page_at_upd_page.
    + rewrite page_at_upd_page by done. unfold s1. by rewrite page_at_upd_page.
  - intros Hd.
    assert (Hall : Forall (λ pg, 0 ≤ pin_count_ pg ≤ INT_MAX)
                     (pages_ (run (new n d) cs))).
    { apply pin_count_run; [done|].
      simpl. apply Forall_replicate. unfold INT_MAX. simpl. lia. }
    eapply Forall_impl; [exact Hall|]. by intros pg [? _].
Qed.

(** *** The free list *)

Lemma writes_app_deallocate (l : list io) (p : Z) :
  omap (λ e, match e with IoWrite q b => Some (q, b) | _ => None end)
       (l ++ [IoDeallocate p])
  = omap (λ e, match e with IoWrite q b => Some (q, b) | _ => None end) l.
Proof. rewrite omap_app. simpl. apply app_nil_r. Qed.

(** C4, as amended.  A frame joins the free list only through [DeletePage]
    of the resident page it holds, at a pin count that is not positive; the
    call returns [true], appends the frame to the free list, asks the page
    store to deallocate the page and writes nothing to the page store: the
    payload of a deleted page is not written back. *)
Theorem free_list_grows_only_by_delete
    (s : BufferPoolManager) (c : call) (f : nat) :
  f ∈ free_list_ (step s c).2 →
  f ∉ free_list_ s →
  ∃ p,
    c = DeletePage p
    ∧ page_table_ s !! p = Some f
    ∧ pin_count_ (page_at s f) ≤ 0
    ∧ (step s c).1 = RBool true
    ∧ free_list_ (step s c).2 = free_list_ s ++ [f]
    ∧ log_ (disk_manager_ (step s c).2)
      = log_ (disk_manager_ s) ++ [IoDeallocate p]
    ∧ writes (disk_manager_ (step s c).2) = writes (disk_manager_ s).
Proof.
  intros Hin Hout. destruct c as [p|p d|p| | |p]; simpl in Hin.
  - exfalso. apply Hout. revert Hin. unfold Bpm.FetchPageImpl.
    destruct (page_table_ s !! p) as [g|]; [by destruct (0 <? _)|].
    pose proof (PickVictimFrame_free_list s f) as Hsub.
    destruct (PickVictimFrame s) as [[g|] s1]; simpl in *; done.
  - exfalso. apply Hout. revert Hin. unfold Bpm.UnpinPageImpl.
    destruct (page_table_ s !! p) as [g|]; [|done]. simpl.
    by destruct (_ <=? 0).
  - exfalso. apply Hout. revert Hin. unfold Bpm.FlushPageImpl.
    by destruct (page_table_ s !! p) as [g|].
  - done.
  - exfalso. apply Hout. revert Hin. unfold Bpm.NewPageImpl.
    destruct (AllPagesPinned _ s); [done|].
    pose proof (PickVictimFrame_free_list s f) as Hsub.
    destruct (PickVictimFrame s) as [[g|] s1]; simpl in *; done.
  - exists p. simpl. revert Hin. unfold Bpm.DeletePageImpl.
    destruct (page_table_ s !! p) as [g|]; [|done].
    destruct (0 <? pin_count_ (page_at s g)) eqn:Hpin; [done|]. simpl.
    rewrite elem_of_app, list_elem_of_singleton. intros [Hin| ->]; [done|].
    apply Z.ltb_ge in Hpin. unfold writes. simpl.
    by rewrite writes_app_deallocate.
Qed.

End WithPageSize.

(** *** Further properties of the buffer pool manager *)

Section MoreWithPageSize.
Variable PAGE_SIZE : nat.

Local Abbreviation PickVictimFrame := (Bpm.PickVictimFrame PAGE_SIZE).
Local Abbreviation AllPagesPinned := (Bpm.AllPagesPinned PAGE_SIZE).
Local Abbreviation FetchPageImpl := (Bpm.FetchPageImpl PAGE_SIZE).
Local Abbreviation UnpinPageImpl := (Bpm.UnpinPageImpl PAGE_SIZE).
Local Abbreviation FlushPageImpl := (Bpm.FlushPageImpl PAGE_SIZE).
Local Abbreviation NewPageImpl := (Bpm.NewPageImpl PAGE_SIZE).
Local Abbreviation DeletePageImpl := (Bpm.DeletePageImpl PAGE_SIZE).
Local Abbreviation ReadPage := (Bpm.ReadPage PAGE_SIZE).
Local Abbreviation zeroes := (Bpm.zeroes PAGE_SIZE).
Local Abbreviation fresh_page := (Bpm.fresh_page PAGE_SIZE).
Local Abbreviation step := (Bpm.step PAGE_SIZE).
Local Abbreviation run := (Bpm.run PAGE_SIZE).
Local Abbreviation new := (Bpm.new PAGE_SIZE).
Local Abbreviation page_at := (Bpm.page_at PAGE_SIZE).
Local Abbreviation coherent := (Bpm.coherent PAGE_SIZE).
Local Abbreviation coherent_but := (Bpm.coherent_but PAGE_SIZE).
Local Abbreviation cold_filled := (Bpm.cold_filled PAGE_SIZE).
Local Abbreviation addresses_allocated := (Bpm.addresses_allocated).
Local Abbreviation well_addressed := (Bpm.well_addressed PAGE_SIZE).

Lemma page_at_upd_page_ne s f g h :
  g ≠ f → page_at (upd_page f h s) g = page_at s g.
Proof.
  intros Hne. unfold Bpm.page_at, upd_page. simpl.
  by rewrite list_lookup_alter_ne.
Qed.

Lemma page_at_in_range s f :
  (f < length (pages_ s))%nat → pages_ s !! f = Some (page_at s f).
Proof.
  intros Hf. unfold Bpm.page_at.
  by destruct (lookup_lt_is_Some_2 _ _ Hf) as [pg ->].
Qed.

Lemma PickVictimFrame_pool_size s :
  pool_size_ (PickVictimFrame s).2 = pool_size_ s.
Proof.
  unfold Bpm.PickVictimFrame. destruct (free_list_ s); [|done].
  destruct (LRU.Victim (replacer_ s)) as [[f|] r]; [|done].
  by destruct (is_dirty_ _).
Qed.

Lemma pool_size_step s c : pool_size_ (step s c).2 = pool_size_ s.
Proof.
  destruct c as [p|p d|p| | |p]; simpl.
  - unfold Bpm.FetchPageImpl. destruct (page_table_ s !! p); [by destruct (0 <? _)|].
    pose proof (PickVictimFrame_pool_size s) as Hps.
    by destruct (PickVictimFrame s) as [[f|] s1].
  - unfold Bpm.UnpinPageImpl. destruct (page_table_ s !! p); [|done]. simpl.
    by destruct (_ <=? 0).
  - unfold Bpm.FlushPageImpl. by destruct (page_table_ s !! p).
  - done.
  - unfold Bpm.NewPageImpl. destruct (AllPagesPinned s); [done|].
    pose proof (PickVictimFrame_pool_size s) as Hps.
    by destruct (PickVictimFrame s) as [[f|] s1].
  - unfold Bpm.DeletePageImpl. destruct (page_table_ s !! p); [|done].
    by destruct (0 <? _).
Qed.

Lemma pool_size_run (cs : list call) : ∀ s, pool_size_ (run s cs) = pool_size_ s.
Proof.
  induction cs as [|c cs IH]; intros s; [done|].
  change (run s (c :: cs)) with (run (step s c).2 cs).
  by rewrite IH, pool_size_step.
Qed.

Lemma NoDup_bounded_length (l : list nat) (n : nat) :
  NoDup l → Forall (λ f, (f < n)%nat) l → (length l ≤ n)%nat.
Proof.
  intros Hnd Hb. rewrite <- (length_seq n 0%nat).
  apply submseteq_length, NoDup_submseteq; [done|].
  intros x Hx. rewrite Forall_forall in Hb. apply elem_of_seq. specialize (Hb x Hx). lia.
Qed.

(** X13.  In every state reached from a fresh pool of [n] frames the pool
    size and the length of the frame array are [n], every frame id on the
    free list, in the page table and in the replacer is below [n], and the
    replacer holds each of its frames once, so at most [n] of them. *)
Theorem frame_ids_stay_in_pool (n : nat) (d : DiskManager) (cs : list call) :
  pool_size_ (run (new n d) cs) = n
  ∧ length (pages_ (run (new n d) cs)) = n
  ∧ Forall (λ f, (f < n)%nat) (free_list_ (run (new n d) cs))
  ∧ (∀ p f, page_table_ (run (new n d) cs) !! p = Some f → (f < n)%nat)
  ∧ Forall (λ f, (f < n)%nat) (LRU.frame_list_ (replacer_ (run (new n d) cs)))
  ∧ NoDup (LRU.frame_list_ (replacer_ (run (new n d) cs)))
  ∧ (LRU.Size (replacer_ (run (new n d) cs)) ≤ n)%nat.
Proof.
  pose proof (reachable_in_range PAGE_SIZE n d cs) as (Hlen & [Hnd Hk] & Hfree & Hrep & Htab).
  pose proof (pool_size_run cs (new n d)) as Hps. simpl in Hps.
  rewrite Hps in *.
  repeat split; try done. by apply NoDup_bounded_length.
Qed.

(** X16.  [Flush] of a resident page returns [true], hands the payload of
    its frame to the page store, where a read of the page now finds it, and
    clears the dirty flag; the pin count, the payload, the other frames,
    the page table, the free list and the replacer are unchanged. *)
Theorem flush_writes_through (s : BufferPoolManager) (p : Z) (f : nat) :
  in_range s → page_table_ s !! p = Some f →
  ∃ s',
    FlushPageImpl s p = (true, s')
    ∧ log_ (disk_manager_ s')
      = log_ (disk_manager_ s) ++ [IoWrite p (data_ (page_at s f))]
    ∧ (ReadPage (disk_manager_ s') p).1 = data_ (page_at s f)
    ∧ page_at s' f = set_is_dirty false (page_at s f)
    ∧ (∀ g, g ≠ f → page_at s' g = page_at s g)
    ∧ page_table_ s' = page_table_ s
    ∧ free_list_ s' = free_list_ s
    ∧ replacer_ s' = replacer_ s.
Proof.
  intros (Hlen & _ & _ & _ & Htab) Hp.
  assert (Hf : (f < length (pages_ s))%nat) by (rewrite Hlen; by eapply Htab).
  unfold Bpm.FlushPageImpl. rewrite Hp. eexists. split; [done|].
  split; [done|]. split; [simpl; by rewrite lookup_insert_eq|].
  split; [by rewrite (page_at_upd_page PAGE_SIZE) by done|].
  split; [intros g Hg; by rewrite page_at_upd_page_ne|]. done.
Qed.

(** X17.  Eviction writes a dirty page back.  With the free list empty,
    [PickVictimFrame] returns the frame the replacer names and removes the
    mapping of the page that frame carries; when the frame is dirty its
    payload is written to the page store under that page's identifier
    first, and when it is clean the page store is not called. *)
Theorem eviction_writes_dirty_page_back
    (s : BufferPoolManager) (f : nat) (r : LRU.LRUReplacer) :
  free_list_ s = [] → LRU.Victim (replacer_ s) = (Some f, r) →
  ∃ s',
    PickVictimFrame s = (Some f, s')
    ∧ page_table_ s' = delete (page_id_ (page_at s f)) (page_table_ s)
    ∧ replacer_ s' = r
    ∧ pages_ s' = pages_ s
    ∧ free_list_ s' = []
    ∧ (is_dirty_ (page_at s f) = true →
         log_ (disk_manager_ s')
         = log_ (disk_manager_ s)
           ++ [IoWrite (page_id_ (page_at s f)) (data_ (page_at s f))]
         ∧ (ReadPage (disk_manager_ s') (page_id_ (page_at s f))).1
           = data_ (page_at s f))
    ∧ (is_dirty_ (page_at s f) = false → disk_manager_ s' = disk_manager_ s).
Proof.
  intros Hfl Hv. unfold Bpm.PickVictimFrame. rewrite Hfl, Hv.
  change (Bpm.page_at PAGE_SIZE (set_replacer r s) f) with (page_at s f).
  destruct (is_dirty_ (page_at s f)); eexists; (split; [done|]); simpl;
    rewrite ?Hfl, ?lookup_insert_eq; repeat split; done.
Qed.

(** X18.  A [Fetch] of a page that is not resident, when [PickVictimFrame]
    supplies frame [f], maps the page to [f] and returns [f] holding what
    the page store has for the page (zeroes when it has nothing), pinned
    once and clean; one read of that page is logged, the other frames are
    untouched.  When no frame is supplied it returns [nullptr]. *)
Theorem fetch_miss_reads_page_in
    (s s1 : BufferPoolManager) (p : Z) (v : option nat) :
  in_range s → page_table_ s !! p = None → PickVictimFrame s = (v, s1) →
  match v with
  | None => FetchPageImpl s p = (None, s1)
  | Some f =>
      ∃ s',
        FetchPageImpl s p = (Some f, s')
        ∧ page_table_ s' = <[p := f]> (page_table_ s1)
        ∧ page_at s' f
          = mkPage (default zeroes (store_ (disk_manager_ s1) !! p)) p 1 false
        ∧ (∀ g, g ≠ f → page_at s' g = page_at s g)
        ∧ log_ (disk_manager_ s') = log_ (disk_manager_ s1) ++ [IoRead p]
        ∧ store_ (disk_manager_ s') = store_ (disk_manager_ s1)
        ∧ free_list_ s' = free_list_ s1
        ∧ replacer_ s' = replacer_ s1
  end.
Proof.
  intros Hs Hp Hv. unfold Bpm.FetchPageImpl. rewrite Hp, Hv.
  destruct v as [f|]; [|done].
  destruct (in_range_PickVictimFrame _ _ _ _ Hs Hv) as ((Hlen1 & _) & Hps & Hf).
  specialize (Hf f eq_refl).
  pose proof (PickVictimFrame_pages PAGE_SIZE s) as Hpg. rewrite Hv in Hpg. simpl in Hpg.
  assert (Hf1 : (f < length (pages_ s1))%nat) by lia.
  eexists. split; [done|]. split; [done|].
  split.
  { unfold Bpm.page_at. simpl. rewrite !list_lookup_alter_eq.
    by rewrite (page_at_in_range s1 f Hf1). }
  split.
  { intros g Hg. unfold Bpm.page_at. simpl.
    rewrite !list_lookup_alter_ne by done. by rewrite Hpg. }
  done.
Qed.

(** X19.  [NewPage], when not every frame is pinned and [PickVictimFrame]
    supplies frame [f], asks the page store for a fresh identifier, maps it
    to [f] and returns it with [f], zeroed, pinned once and clean; the other
    frames are untouched.  When every frame is pinned, or no frame is
    supplied, it returns [nullptr]. *)
Theorem new_page_installs_fresh_page
    (s s1 : BufferPoolManager) (v : option nat) :
  in_range s → PickVictimFrame s = (v, s1) →
  (AllPagesPinned s = true → NewPageImpl s = (None, s))
  ∧ (AllPagesPinned s = false →
     match v with
     | None => NewPageImpl s = (None, s1)
     | Some f =>
         ∃ s',
           NewPageImpl s = (Some (next_page_id_ (disk_manager_ s1), f), s')
           ∧ page_table_ s'
             = <[next_page_id_ (disk_manager_ s1) := f]> (page_table_ s1)
           ∧ page_at s' f
             = mkPage zeroes (next_page_id_ (disk_manager_ s1)) 1 false
           ∧ (∀ g, g ≠ f → page_at s' g = page_at s g)
           ∧ next_page_id_ (disk_manager_ s')
             = next_page_id_ (disk_manager_ s1) + 1
           ∧ log_ (disk_manager_ s')
             = log_ (disk_manager_ s1)
               ++ [IoAllocate (next_page_id_ (disk_manager_ s1))]
           ∧ store_ (disk_manager_ s') = store_ (disk_manager_ s1)
           ∧ free_list_ s' = free_list_ s1
           ∧ replacer_ s' = replacer_ s1
     end).
Proof.
  intros Hs Hv. unfold Bpm.NewPageImpl. split; intros ->; [done|]. rewrite Hv.
  destruct v as [f|]; [|done].
  destruct (in_range_PickVictimFrame _ _ _ _ Hs Hv) as ((Hlen1 & _) & Hps & Hf).
  specialize (Hf f eq_refl).
  pose proof (PickVictimFrame_pages PAGE_SIZE s) as Hpg. rewrite Hv in Hpg. simpl in Hpg.
  assert (Hf1 : (f < length (pages_ s1))%nat) by lia.
  eexists. split; [done|]. split; [done|].
  split.
  { unfold Bpm.page_at. simpl. rewrite !list_lookup_alter_eq.
    by rewrite (page_at_in_range s1 f Hf1). }
  split.
  { intros g Hg. unfold Bpm.page_at. simpl.
    rewrite !list_lookup_alter_ne by done. by rewrite Hpg. }
  done.
Qed.

Lemma AllPagesPinned_true s :
  AllPagesPinned s = true
  ↔ ∀ i, (i < pool_size_ s)%nat → 0 < pin_count_ (page_at s i).
Proof.
  unfold Bpm.AllPagesPinned. rewrite forallb_forall. split.
  - intros H i Hi. specialize (H i). rewrite <- list_elem_of_In, elem_of_seq in H.
    specialize (H ltac:(lia)). apply negb_true_iff, Z.leb_gt in H. done.
  - intros H i Hi. rewrite <- list_elem_of_In, elem_of_seq in Hi.
    apply negb_true_iff, Z.leb_gt, H. lia.
Qed.

(** X20.  [AllPagesPinned] holds exactly when every frame of the array has
    a positive pin count, free frames included, and [NewPage] then returns
    [nullptr] and changes nothing, whatever the free list and the replacer
    hold. *)
Theorem new_page_refused_when_all_pinned (s : BufferPoolManager) :
  in_range s →
  (AllPagesPinned s = true ↔ Forall (λ pg, 0 < pin_count_ pg) (pages_ s))
  ∧ (Forall (λ pg, 0 < pin_count_ pg) (pages_ s) → NewPageImpl s = (None, s)).
Proof.
  intros (Hlen & _).
  assert (Hiff : AllPagesPinned s = true
                 ↔ Forall (λ pg, 0 < pin_count_ pg) (pages_ s)).
  { rewrite AllPagesPinned_true, Forall_lookup. split.
    - intros H i pg Hpg. pose proof (lookup_lt_Some _ _ _ Hpg) as Hi.
      specialize (H i ltac:(lia)). unfold Bpm.page_at in H. by rewrite Hpg in H.
    - intros H i Hi. rewrite <- Hlen in Hi.
      eapply H. by apply page_at_in_range. }
  split; [done|]. intros Hall. apply Hiff in Hall.
  unfold Bpm.NewPageImpl. by rewrite Hall.
Qed.

(** X21.  [Unpin] of a resident page returns [true]; in its frame the pin
    count becomes the old count less one, wrapped to a 32-bit [int] (the
    old count less one wherever that is an [int]); the dirty flag becomes
    the old flag or the argument, so that an [Unpin] with [false] never
    clears it, and the payload and page id are kept; the frame is handed to
    the replacer exactly when the new pin count is not positive; the other
    frames, the page table, the free list and the page store are
    unchanged. *)
Theorem unpin_keeps_dirty_flag
    (s : BufferPoolManager) (p : Z) (d : bool) (f : nat) :
  in_range s → page_table_ s !! p = Some f →
  ∃ s',
    UnpinPageImpl s p d = (true, s')
    ∧ page_at s' f
      = mkPage (data_ (page_at s f)) (page_id_ (page_at s f))
               (int_wrap (pin_count_ (page_at s f) - 1))
               (is_dirty_ (page_at s f) || d)
    ∧ (INT_MIN < pin_count_ (page_at s f) ≤ INT_MAX →
       int_wrap (pin_count_ (page_at s f) - 1) = pin_count_ (page_at s f) - 1)
    ∧ (∀ g, g ≠ f → page_at s' g = page_at s g)
    ∧ replacer_ s'
      = (if pin_count_ (page_at s' f) <=? 0
         then LRU.Unpin (replacer_ s) f else replacer_ s)
    ∧ page_table_ s' = page_table_ s
    ∧ free_list_ s' = free_list_ s
    ∧ disk_manager_ s' = disk_manager_ s.
Proof.
  intros (Hlen & _ & _ & _ & Htab) Hp.
  assert (Hf : (f < length (pages_ s))%nat) by (rewrite Hlen; by eapply Htab).
  unfold Bpm.UnpinPageImpl. rewrite Hp. cbv zeta. eexists. split; [reflexivity|].
  rewrite (page_at_upd_page PAGE_SIZE s f _ Hf). cbn [set_pin_count pin_count_].
  assert (Hpg : ∀ s2, pages_ s2
      = alter (λ pg, set_pin_count (int_wrap (pin_count_ pg - 1)) pg) f (pages_ s) →
    page_at (upd_page f (λ pg, set_is_dirty (is_dirty_ pg || d) pg) s2) f
    = mkPage (data_ (page_at s f)) (page_id_ (page_at s f))
             (int_wrap (pin_count_ (page_at s f) - 1))
             (is_dirty_ (page_at s f) || d)).
  { intros s2 Hs2. unfold Bpm.page_at. simpl.
    by rewrite Hs2, !list_lookup_alter_eq, (page_at_in_range s f Hf). }
  split; [destruct (_ <=? 0); by apply Hpg|].
  split.
  { intros [Hlo Hhi]. apply int_wrap_id. unfold INT_MIN, INT_MAX in *. lia. }
  split.
  { intros g Hg. unfold Bpm.page_at. destruct (_ <=? 0); simpl;
      by rewrite !list_lookup_alter_ne. }
  split; [|destruct (_ <=? 0); done].
  destruct (int_wrap (pin_count_ (page_at s f) - 1) <=? 0) eqn:Hle;
    rewrite Hpg by done; simpl; by rewrite Hle.
Qed.

Lemma set_replacer_same s : set_replacer (replacer_ s) s = s.
Proof. by destruct s. Qed.

(** X22.  No frame available: with the free list and the replacer both
    empty, a [Fetch] of a page that is not resident and a [NewPage] return
    [nullptr] and leave the state as it is. *)
Theorem no_frame_available (s : BufferPoolManager) (p : Z) :
  free_list_ s = [] → LRU.frame_list_ (replacer_ s) = [] →
  (page_table_ s !! p = None → FetchPageImpl s p = (None, s))
  ∧ NewPageImpl s = (None, s).
Proof.
  intros Hfl Hrl.
  assert (Hv : PickVictimFrame s = (None, s)).
  { unfold Bpm.PickVictimFrame, LRU.Victim. rewrite Hfl, Hrl. simpl.
    by rewrite set_replacer_same. }
  split.
  - intros Hp. unfold Bpm.FetchPageImpl. by rewrite Hp, Hv.
  - unfold Bpm.NewPageImpl. destruct (AllPagesPinned s); [done|]. by rewrite Hv.
Qed.

(** **** The free list and the page table share out the frames *)

Lemma page_id_upd_page s f g h :
  (∀ pg, page_id_ (h pg) = page_id_ pg) →
  page_id_ (page_at (upd_page f h s) g) = page_id_ (page_at s g).
Proof.
  intros Hh. unfold Bpm.page_at, upd_page. simpl.
  destruct (decide (g = f)) as [->|Hne].
  - rewrite list_lookup_alter_eq. destruct (pages_ s !! f); simpl; [apply Hh | done].
  - by rewrite list_lookup_alter_ne.
Qed.

Lemma page_at_set_replacer s r g : page_at (set_replacer r s) g = page_at s g.
Proof. done. Qed.

Lemma coherent_new n d : coherent (new n d).
Proof.
  unfold Bpm.coherent, resident. simpl. split; [apply NoDup_seq|].
  split; [intros f _ [p Hp]; by rewrite lookup_empty in Hp|].
  split; [intros f Hf; left; apply elem_of_seq; lia|].
  split; [intros p f Hp; by rewrite lookup_empty in Hp|].
  intros p [f Hp]. by rewrite lookup_empty in Hp.
Qed.

Lemma coherent_ext s s' :
  free_list_ s' = free_list_ s →
  page_table_ s' = page_table_ s →
  pool_size_ s' = pool_size_ s →
  (∀ g, page_id_ (page_at s' g) = page_id_ (page_at s g)) →
  next_page_id_ (disk_manager_ s') = next_page_id_ (disk_manager_ s) →
  coherent s → coherent s'.
Proof.
  intros Hfl Ht Hps Hid Hnx. unfold Bpm.coherent, resident.
  rewrite Hfl, Ht, Hps, Hnx. intros (H1 & H2 & H3 & H4 & H5).
  repeat split; try done. intros p f Hp. rewrite Hid. by apply H4.
Qed.

Lemma coherent_PickVictimFrame s f s1 :
  in_range s → coherent s → PickVictimFrame s = (Some f, s1) →
  coherent_but s1 f
  ∧ next_page_id_ (disk_manager_ s1) = next_page_id_ (disk_manager_ s)
  ∧ (∀ p, page_table_ s !! p = None → page_table_ s1 !! p = None).
Proof.
  intros (Hlen & Hwf & Hfree & Hrep & Htab) (H1 & H2 & H3 & H4 & H5).
  unfold Bpm.PickVictimFrame.
  destruct (free_list_ s) as [|f0 rest] eqn:Hfl.
  - destruct (LRU.Victim (replacer_ s)) as [[g|] r] eqn:Hv; [|done].
    destruct (lru_Victim_Some _ _ _ Hv) as [Hg _].
    rewrite Forall_forall in Hrep. specialize (Hrep g Hg).
    destruct (H3 g Hrep) as [Hin|[q Hq]]; [inversion Hin|].
    change (Bpm.page_at PAGE_SIZE (set_replacer r s) g) with (page_at s g).
    rewrite (H4 q g Hq).
    assert (Hcb : ∀ d,
      next_page_id_ d = next_page_id_ (disk_manager_ s) →
      coherent_but (set_disk_manager d
        (set_page_table (delete q (page_table_ s)) (set_replacer r s))) g).
    { intros d Hd. unfold Bpm.coherent_but, resident. simpl. rewrite Hfl, Hd.
      split; [constructor|]. split; [by intros Hx; inversion Hx|].
      split.
      { intros [p Hp]. apply lookup_delete_Some in Hp as [Hne Hp].
        apply Hne. by rewrite <- (H4 q g Hq), <- (H4 p g Hp). }
      split; [by intros x Hx; inversion Hx|].
      split.
      { intros x Hx Hxg. destruct (H3 x Hx) as [Hin|[p Hp]]; [inversion Hin|].
        right. exists p. apply lookup_delete_Some. split; [|done].
        intros ->. rewrite Hq in Hp. by injection Hp. }
      split.
      { intros p x Hp. apply lookup_delete_Some in Hp as [_ Hp]. by apply H4. }
      intros p [x Hp]. apply lookup_delete_Some in Hp as [_ Hp]. apply H5. by exists x. }
    assert (Hnone : ∀ p, page_table_ s !! p = None
                         → delete q (page_table_ s) !! p = None).
    { intros p Hp. apply lookup_delete_None. by right. }
    destruct (is_dirty_ (page_at s g)); intros [= <- <-].
    + split; [by apply Hcb|]. by split.
    + split; [by apply (Hcb (disk_manager_ s))|]. by split.
  - intros [= <- <-]. apply NoDup_cons in H1 as [Hf0 Hrest].
    split; [|by split].
    unfold Bpm.coherent_but, resident. simpl.
    split; [done|]. split; [done|].
    split; [apply H2; left|].
    split; [intros x Hx; apply H2; by right|].
    split.
    { intros x Hx Hxf. destruct (H3 x Hx) as [Hin|Hres]; [|by right].
      apply elem_of_cons in Hin as [->|Hin]; [done | by left]. }
    by split.
Qed.

Lemma coherent_PickVictimFrame_None s s1 :
  coherent s → PickVictimFrame s = (None, s1) → s1 = s.
Proof.
  intros _. unfold Bpm.PickVictimFrame. destruct (free_list_ s); [|done].
  destruct (LRU.Victim (replacer_ s)) as [[g|] r] eqn:Hv; [by destruct (is_dirty_ _)|].
  apply lru_Victim_None in Hv as ->. intros [= <-]. apply set_replacer_same.
Qed.

Lemma coherent_install s1 s' f p :
  coherent_but s1 f →
  page_table_ s1 !! p = None →
  page_table_ s' = <[p := f]> (page_table_ s1) →
  free_list_ s' = free_list_ s1 →
  pool_size_ s' = pool_size_ s1 →
  page_id_ (page_at s' f) = p →
  (∀ g, g ≠ f → page_at s' g = page_at s1 g) →
  p < next_page_id_ (disk_manager_ s') →
  next_page_id_ (disk_manager_ s1) ≤ next_page_id_ (disk_manager_ s') →
  coherent s'.
Proof.
  intros (H1 & Hf & Hnr & H2 & H3 & H4 & H5) Hp Ht Hfl Hps Hid Hoth Hlt Hle.
  unfold Bpm.coherent, resident. rewrite Ht, Hfl, Hps.
  split; [done|]. split.
  { intros g Hg [q Hq]. apply lookup_insert_Some in Hq as [[-> ->]|[Hne Hq]].
    - done.
    - apply (H2 g Hg). by exists q. }
  split.
  { intros g Hg. destruct (decide (g = f)) as [->|Hne].
    - right. exists p. by rewrite lookup_insert_eq.
    - destruct (H3 g Hg Hne) as [Hin|[q Hq]]; [by left|].
      right. exists q. rewrite lookup_insert_ne; [done|]. intros ->. by rewrite Hp in Hq. }
  split.
  { intros q g Hq. apply lookup_insert_Some in Hq as [[<- <-]|[Hne Hq]]; [done|].
    rewrite Hoth; [by apply H4|]. intros ->. apply Hnr. by exists q. }
  intros q [g Hq]. apply lookup_insert_Some in Hq as [[<- <-]|[Hne Hq]]; [done|].
  assert (q < next_page_id_ (disk_manager_ s1)) by (apply H5; by exists g). lia.
Qed.

Lemma coherent_step s c :
  in_range s → coherent s → addresses_allocated s c = true →
  coherent (step s c).2.
Proof.
  intros Hs Hc Ha. pose proof Hs as (Hlen & _ & _ & _ & Htab).
  destruct c as [p|p d|p| | |p]; simpl.
  - unfold Bpm.FetchPageImpl. destruct (page_table_ s !! p) as [f|] eqn:Hp.
    + by destruct (0 <? _).
    + destruct (PickVictimFrame s) as [[f|] s1] eqn:Hv.
      2:{ by rewrite (coherent_PickVictimFrame_None s s1 Hc Hv). }
      destruct (coherent_PickVictimFrame s f s1 Hs Hc Hv) as (Hcb & Hnx & Hnone).
      destruct (in_range_PickVictimFrame _ _ _ _ Hs Hv) as ((Hlen1 & _) & Hps & Hf).
      specialize (Hf f eq_refl).
      simpl in Ha. apply Z.ltb_lt in Ha.
      apply (coherent_install s1 _ f p); simpl; try done.
      * by apply Hnone.
      * unfold Bpm.page_at. simpl. rewrite !list_lookup_alter_eq.
        destruct (lookup_lt_is_Some_2 (pages_ s1) f ltac:(lia)) as [pg ->]. done.
      * intros g Hg. unfold Bpm.page_at. simpl. by rewrite !list_lookup_alter_ne.
      * by rewrite Hnx.
  - unfold Bpm.UnpinPageImpl. destruct (page_table_ s !! p) as [f|]; [|done].
    cbv zeta. cbn [snd].
    apply (coherent_ext s); [| | | | |exact Hc]; try (by destruct (_ <=? 0)).
    intros g. rewrite page_id_upd_page by done.
    destruct (_ <=? 0); rewrite ?page_at_set_replacer; by apply page_id_upd_page.
  - unfold Bpm.FlushPageImpl. destruct (page_table_ s !! p) as [f|]; [|done].
    cbn [snd]. apply (coherent_ext s); [done|done|done| |done|exact Hc].
    intros g. by rewrite page_id_upd_page.
  - done.
  - unfold Bpm.NewPageImpl. destruct (AllPagesPinned s); [done|].
    destruct (PickVictimFrame s) as [[f|] s1] eqn:Hv.
    2:{ by rewrite (coherent_PickVictimFrame_None s s1 Hc Hv). }
    destruct (coherent_PickVictimFrame s f s1 Hs Hc Hv) as (Hcb & Hnx & Hnone).
    destruct (in_range_PickVictimFrame _ _ _ _ Hs Hv) as ((Hlen1 & _) & Hps & Hf).
    specialize (Hf f eq_refl).
    apply (coherent_install s1 _ f (next_page_id_ (disk_manager_ s1))); simpl; try done; try lia.
    + destruct Hcb as (_ & _ & _ & _ & _ & _ & H5).
      destruct (page_table_ s1 !! next_page_id_ (disk_manager_ s1)) eqn:Hk; [|done].
      specialize (H5 _ (mk_is_Some _ _ Hk)). lia.
    + unfold Bpm.page_at. simpl. rewrite !list_lookup_alter_eq.
      destruct (lookup_lt_is_Some_2 (pages_ s1) f ltac:(lia)) as [pg ->]. done.
    + intros g Hg. unfold Bpm.page_at. simpl. by rewrite !list_lookup_alter_ne.
  - unfold Bpm.DeletePageImpl. destruct (page_table_ s !! p) as [f|] eqn:Hp; [|done].
    destruct (0 <? _); [done|]. cbn [snd].
    destruct Hc as (H1 & H2 & H3 & H4 & H5).
    unfold Bpm.coherent, resident. simpl.
    assert (Hfree : f ∉ free_list_ s).
    { intros Hin. apply (H2 f Hin). by exists p. }
    split.
    { apply NoDup_app. split; [done|]. split; [|apply NoDup_singleton].
      intros x Hx Hx'. apply list_elem_of_singleton in Hx' as ->. done. }
    split.
    { intros g Hg [q Hq]. apply lookup_delete_Some in Hq as [Hne Hq].
      apply elem_of_app in Hg as [Hg|Hg].
      - apply (H2 g Hg). by exists q.
      - apply list_elem_of_singleton in Hg as ->.
        apply Hne. by rewrite <- (H4 p f Hp), <- (H4 q f Hq). }
    split.
    { intros g Hg. rewrite elem_of_app, list_elem_of_singleton.
      destruct (H3 g Hg) as [Hin|[q Hq]]; [by left; left|].
      destruct (decide (q = p)) as [->|Hne].
      - left. right. rewrite Hp in Hq. by injection Hq.
      - right. exists q. by apply lookup_delete_Some. }
    split.
    { intros q g Hq. apply lookup_delete_Some in Hq as [Hne Hq].
      change (page_id_ (page_at (upd_page f (ResetMemory PAGE_SIZE) s) g) = q).
      rewrite page_id_upd_page by done. by apply H4. }
    intros q [g Hq]. apply lookup_delete_Some in Hq as [_ Hq]. apply H5. by exists g.
Qed.

Lemma coherent_run (cs : list call) : ∀ s,
  in_range s → coherent s → well_addressed s cs = true →
  coherent (run s cs).
Proof.
  induction cs as [|c cs IH]; intros s Hs Hc Hw; [done|].
  simpl in Hw. apply andb_prop in Hw as [Ha Hw].
  change (run s (c :: cs)) with (run (step s c).2 cs).
  apply IH; [by apply in_range_step | by apply coherent_step | done].
Qed.



(** **** Cold start *)

Lemma cold_filled_step (next : Z) (k : nat) (s : BufferPoolManager) :
  cold_filled next k s → (k < pool_size_ s)%nat →
  ∃ s', NewPageImpl s = (Some (next + Z.of_nat k, k), s')
        ∧ pool_size_ s' = pool_size_ s
        ∧ cold_filled next (S k) s'.
Proof.
  intros (Hlen & Hfl & Hpin & Hfree & Hnx) Hk.
  assert (Hnot : AllPagesPinned s = false).
  { destruct (AllPagesPinned s) eqn:Hall; [|done].
    rewrite AllPagesPinned_true in Hall. specialize (Hall k Hk).
    rewrite Hfree in Hall by lia. lia. }
  assert (Hv : PickVictimFrame s
               = (Some k, set_free_list (seq (S k) (pool_size_ s - S k)) s)).
  { unfold Bpm.PickVictimFrame. rewrite Hfl.
    replace (pool_size_ s - k)%nat with (S (pool_size_ s - S k)) by lia. done. }
  unfold Bpm.NewPageImpl. rewrite Hnot, Hv. cbv zeta. simpl. rewrite Hnx.
  eexists. split; [reflexivity|]. split; [done|].
  unfold Bpm.cold_filled. simpl. rewrite !length_alter.
  split; [done|]. split; [done|]. split; [|split].
  - intros i Hi. unfold Bpm.page_at. simpl.
    destruct (decide (i = k)) as [->|Hne].
    + rewrite !list_lookup_alter_eq.
      destruct (lookup_lt_is_Some_2 (pages_ s) k ltac:(lia)) as [pg ->]. done.
    + rewrite !list_lookup_alter_ne by done. apply Hpin. lia.
  - intros i Hi. unfold Bpm.page_at. simpl.
    rewrite !list_lookup_alter_ne by lia. apply Hfree. lia.
  - lia.
Qed.

Lemma cold_filled_new (n : nat) (d : DiskManager) :
  cold_filled (next_page_id_ d) 0 (new n d).
Proof.
  unfold Bpm.cold_filled. simpl. rewrite length_replicate, Nat.sub_0_r.
  split; [done|]. split; [done|]. split; [intros i Hi; lia|].
  split; [|lia]. intros i Hi. unfold Bpm.page_at. simpl.
  by rewrite lookup_replicate_2 by lia.
Qed.

Lemma cold_filled_run (next : Z) (j : nat) : ∀ (k : nat) (s : BufferPoolManager),
  cold_filled next k s → (k + j ≤ pool_size_ s)%nat →
  cold_filled next (k + j) (run s (replicate j NewPage))
  ∧ pool_size_ (run s (replicate j NewPage)) = pool_size_ s.
Proof.
  induction j as [|j IH]; intros k s Hs Hk.
  - by rewrite Nat.add_0_r.
  - destruct (cold_filled_step next k s Hs ltac:(lia)) as (s' & Hn & Hps & Hs').
    change (run s (replicate (S j) NewPage))
      with (run (step s NewPage).2 (replicate j NewPage)).
    simpl. rewrite Hn. simpl.
    replace (k + S j)%nat with (S k + j)%nat by lia.
    rewrite <- Hps. apply IH; [done|]. rewrite Hps. lia.
Qed.


End MoreWithPageSize.

(** *** Worked runs, on a pool of one frame with 4096-byte pages *)

Local Abbreviation run1 := (Bpm.run 4096 (Bpm.new 4096 1 Bpm.empty_disk)).
Local Abbreviation page_at := (Bpm.page_at 4096).

Lemma fetch_hit_frame_witness :
  page_table_ (run1 [NewPage]) !! 0 = Some 0%nat
  ∧ pages_ (FetchPageImpl 4096 (run1 [NewPage]) 0).2 = pages_ (run1 [NewPage]).
Proof.
  assert (H : page_table_ (run1 [NewPage]) !! 0 = Some 0%nat)
    by (vm_compute; reflexivity).
  split; [exact H|].
  exact (proj1 (proj2 (fetch_hit_frame 4096 (run1 [NewPage]) 0 0 H))).
Defined.

Lemma unpin_decrements_without_guard_witness :
  disciplined 4096 (new 4096 1 empty_disk) [NewPage; Unpin 0 false] = true
  ∧ Forall (λ pg, 0 ≤ pin_count_ pg) (pages_ (run1 [NewPage; Unpin 0 false])).
Proof.
  assert (H : disciplined 4096 (new 4096 1 empty_disk) [NewPage; Unpin 0 false] = true)
    by (vm_compute; reflexivity).
  split; [exact H|].
  exact (proj2 (unpin_decrements_without_guard 4096 1 empty_disk
                  [NewPage; Unpin 0 false]) H).
Defined.

Lemma free_list_grows_only_by_delete_witness :
  (0%nat ∈ free_list_ (step 4096 (run1 [NewPage; Unpin 0 true]) (DeletePage 0)).2
   ∧ 0%nat ∉ free_list_ (run1 [NewPage; Unpin 0 true]))
  ∧ ∃ p, DeletePage 0 = DeletePage p
         ∧ page_table_ (run1 [NewPage; Unpin 0 true]) !! p = Some 0%nat.
Proof.
  assert (H1 : 0%nat ∈ free_list_ (step 4096 (run1 [NewPage; Unpin 0 true]) (DeletePage 0)).2)
    by (apply (bool_decide_unpack _); vm_compute; exact I).
  assert (H2 : 0%nat ∉ free_list_ (run1 [NewPage; Unpin 0 true]))
    by (apply (bool_decide_unpack _); vm_compute; exact I).
  split; [by split|].
  destruct (free_list_grows_only_by_delete 4096 _ _ _ H1 H2) as (p & Hc & Hp & _).
  by exists p.
Defined.

Local Abbreviation run3 := (Bpm.run 4096 (Bpm.new 4096 3 Bpm.empty_disk)).

(** Cold fill, then eviction in LRU order: three new pages fill frames 0, 1
    and 2; once all three are unpinned, a fourth new page takes frame 0. *)
Example cold_fill_then_evict :
  (NewPageImpl 4096
     (run3 [NewPage; NewPage; NewPage;
            Unpin 0 false; Unpin 1 false; Unpin 2 false])).1
  = Some (3, 0%nat).
Proof. vm_compute. reflexivity. Qed.

(** Pinned pages block [NewPage]; unpinning page 1 frees its frame. *)
Example pinned_pages_block_new_page :
  (NewPageImpl 4096 (run3 [NewPage; NewPage; NewPage])).1 = None
  ∧ (NewPageImpl 4096 (run3 [NewPage; NewPage; NewPage; Unpin 1 false])).1
    = Some (3, 1%nat).
Proof. vm_compute. by split. Qed.

(** C1.  [Fetch] of a resident page does not touch the pin count.  After
    [NewPage] the new page 0 sits in frame 0 with pin count 1; a [Fetch] of
    it returns frame 0 with the count still 1.  After [Unpin] the count is
    0, and a [Fetch] returns frame 0 with a pin count of 0. *)
Theorem fetch_hit_pin_count_unchanged :
  page_table_ (run1 [NewPage]) !! 0 = Some 0%nat
  ∧ (FetchPageImpl 4096 (run1 [NewPage]) 0).1 = Some 0%nat
  ∧ pin_count_ (page_at (run1 [NewPage; Fetch 0]) 0) = 1
  ∧ page_table_ (run1 [NewPage; Unpin 0 false]) !! 0 = Some 0%nat
  ∧ (FetchPageImpl 4096 (run1 [NewPage; Unpin 0 false]) 0).1 = Some 0%nat
  ∧ pin_count_ (page_at (run1 [NewPage; Unpin 0 false; Fetch 0]) 0) = 0.
Proof. vm_compute. repeat split. Qed.

(** C2.  A pinned frame is chosen as victim.  [DeletePage] leaves frame 0
    in the replacer; the next [NewPage] takes frame 0 from the free list
    for page 1, pinned once; with the free list empty, [PickVictimFrame]
    then gets frame 0 from the replacer and removes the mapping of page 1,
    and a [Fetch] of page 7 hands frame 0 to page 7. *)
Theorem pinned_frame_evicted_after_delete :
  page_table_ (run1 [NewPage; Unpin 0 false; DeletePage 0; NewPage]) !! 1
    = Some 0%nat
  ∧ pin_count_ (page_at (run1 [NewPage; Unpin 0 false; DeletePage 0; NewPage]) 0)
    = 1
  ∧ (PickVictimFrame 4096
       (run1 [NewPage; Unpin 0 false; DeletePage 0; NewPage])).1 = Some 0%nat
  ∧ page_table_
      (PickVictimFrame 4096
         (run1 [NewPage; Unpin 0 false; DeletePage 0; NewPage])).2 !! 1 = None
  ∧ (FetchPageImpl 4096
       (run1 [NewPage; Unpin 0 false; DeletePage 0; NewPage]) 7).1 = Some 0%nat
  ∧ page_table_
      (run1 [NewPage; Unpin 0 false; DeletePage 0; NewPage; Fetch 7]) !! 1 = None
  ∧ page_table_
      (run1 [NewPage; Unpin 0 false; DeletePage 0; NewPage; Fetch 7]) !! 7
    = Some 0%nat.
Proof. vm_compute. repeat split. Qed.

(** C3.  The evictable set and the page table fall out of step.  After
    [DeletePage] frame 0 is still evictable although no page is mapped to
    it.  After a [Fetch] of the unpinned page 0, frame 0 is resident with a
    pin count of 0 and not evictable.  And once frame 0, still evictable,
    has been given to the pinned page 1, a [Fetch] of page 1 leaves it
    evictable. *)
Theorem evictable_set_out_of_step :
  (evictable (run1 [NewPage; Unpin 0 false; DeletePage 0]) 0
   ∧ ¬ resident (run1 [NewPage; Unpin 0 false; DeletePage 0]) 0)
  ∧ (resident (run1 [NewPage; Unpin 0 false; Fetch 0]) 0
     ∧ pin_count_ (page_at (run1 [NewPage; Unpin 0 false; Fetch 0]) 0) = 0
     ∧ ¬ evictable (run1 [NewPage; Unpin 0 false; Fetch 0]) 0)
  ∧ (page_table_
       (run1 [NewPage; Unpin 0 false; DeletePage 0; NewPage; Fetch 1]) !! 1
     = Some 0%nat
     ∧ pin_count_
         (page_at (run1 [NewPage; Unpin 0 false; DeletePage 0; NewPage; Fetch 1]) 0)
       = 1
     ∧ evictable (run1 [NewPage; Unpin 0 false; DeletePage 0; NewPage; Fetch 1]) 0).
Proof.
  split; [split|split; [split; [|split]|split; [|split]]].
  - unfold evictable. apply (bool_decide_unpack _). vm_compute. exact I.
  - intros [p Hp].
    assert (Ht : page_table_ (run1 [NewPage; Unpin 0 false; DeletePage 0]) = ∅)
      by (vm_compute; reflexivity).
    rewrite Ht, lookup_empty in Hp. discriminate.
  - exists 0. vm_compute. reflexivity.
  - vm_compute. reflexivity.
  - unfold evictable. apply (bool_decide_unpack _). vm_compute. exact I.
  - vm_compute. reflexivity.
  - vm_compute. reflexivity.
  - unfold evictable. apply (bool_decide_unpack _). vm_compute. exact I.
Qed.

(** Counterexample to C4 as stated.  [DeletePage] of the unpinned dirty
    page 0 returns [true] and puts frame 0, its dirty flag still set, on the
    free list; nothing has been written to the page store. *)
Lemma delete_page_dirty_frame_unwritten :
  page_table_ (run1 [NewPage; Unpin 0 true]) !! 0 = Some 0%nat
  ∧ pin_count_ (page_at (run1 [NewPage; Unpin 0 true]) 0) = 0
  ∧ is_dirty_ (page_at (run1 [NewPage; Unpin 0 true]) 0) = true
  ∧ (DeletePageImpl 4096 (run1 [NewPage; Unpin 0 true]) 0).1 = true
  ∧ free_list_ (run1 [NewPage; Unpin 0 true; DeletePage 0]) = [0%nat]
  ∧ is_dirty_ (page_at (run1 [NewPage; Unpin 0 true; DeletePage 0]) 0) = true
  ∧ writes (disk_manager_ (run1 [NewPage; Unpin 0 true; DeletePage 0])) = [].
Proof. vm_compute. repeat split. Qed.

(** C5.  [DeletePage] of a page that is not in the page table returns
    [false], on a fresh pool and again after the page has been deleted; the
    state is unchanged. *)
Theorem delete_absent_page_returns_false :
  DeletePageImpl 4096 (run1 []) 0 = (false, run1 [])
  ∧ (DeletePageImpl 4096 (run1 [NewPage; Unpin 0 false]) 0).1 = true
  ∧ page_table_ (run1 [NewPage; Unpin 0 false; DeletePage 0]) !! 0 = None
  ∧ DeletePageImpl 4096 (run1 [NewPage; Unpin 0 false; DeletePage 0]) 0
    = (false, run1 [NewPage; Unpin 0 false; DeletePage 0]).
Proof. vm_compute. repeat split. Qed.

(** C6.  [FlushAll] does nothing.  With the dirty page 0 resident in frame
    0, [FlushAll] leaves the state as it is: no payload has reached the page
    store and the dirty flag is still set. *)
Theorem flush_all_writes_nothing :
  page_table_ (run1 [NewPage; Unpin 0 true]) !! 0 = Some 0%nat
  ∧ is_dirty_ (page_at (run1 [NewPage; Unpin 0 true]) 0) = true
  ∧ FlushAllPagesImpl (run1 [NewPage; Unpin 0 true]) = run1 [NewPage; Unpin 0 true]
  ∧ writes (disk_manager_ (run1 [NewPage; Unpin 0 true; FlushAll])) = []
  ∧ is_dirty_ (page_at (run1 [NewPage; Unpin 0 true; FlushAll]) 0) = true.
Proof. vm_compute. repeat split. Qed.

(** Counterexample to C7 as stated.  With the pin count of page 0 at zero,
    a further [Unpin] returns [true] and leaves the count at -1. *)
Lemma unpin_at_zero_goes_negative :
  pin_count_ (page_at (run1 [NewPage; Unpin 0 false]) 0) = 0
  ∧ (UnpinPageImpl 4096 (run1 [NewPage; Unpin 0 false]) 0 false).1 = true
  ∧ pin_count_ (page_at (run1 [NewPage; Unpin 0 false; Unpin 0 false]) 0) = -1.
Proof. vm_compute. repeat split. Qed.

Local Abbreviation run2 := (Bpm.run 4096 (Bpm.new 4096 2 Bpm.empty_disk)).

Lemma flush_writes_through_witness :
  in_range (run1 [NewPage]) ∧ page_table_ (run1 [NewPage]) !! 0 = Some 0%nat
  ∧ ∃ s', FlushPageImpl 4096 (run1 [NewPage]) 0 = (true, s').
Proof.
  assert (H1 : in_range (run1 [NewPage])) by apply reachable_in_range.
  assert (H2 : page_table_ (run1 [NewPage]) !! 0 = Some 0%nat)
    by (vm_compute; reflexivity).
  split; [exact H1|]. split; [exact H2|].
  destruct (flush_writes_through 4096 _ _ _ H1 H2) as (s' & Hs' & _).
  by exists s'.
Defined.

Lemma eviction_writes_dirty_page_back_witness :
  free_list_ (run1 [NewPage; Unpin 0 true]) = []
  ∧ LRU.Victim (replacer_ (run1 [NewPage; Unpin 0 true]))
    = (Some 0%nat, (LRU.Victim (replacer_ (run1 [NewPage; Unpin 0 true]))).2)
  ∧ ∃ s', PickVictimFrame 4096 (run1 [NewPage; Unpin 0 true]) = (Some 0%nat, s')
          ∧ (ReadPage 4096 (disk_manager_ s') 0).1
            = data_ (page_at (run1 [NewPage; Unpin 0 true]) 0).
Proof.
  assert (H1 : free_list_ (run1 [NewPage; Unpin 0 true]) = [])
    by (vm_compute; reflexivity).
  assert (H2 : LRU.Victim (replacer_ (run1 [NewPage; Unpin 0 true]))
    = (Some 0%nat, (LRU.Victim (replacer_ (run1 [NewPage; Unpin 0 true]))).2))
    by (vm_compute; reflexivity).
  split; [exact H1|]. split; [exact H2|].
  destruct (eviction_writes_dirty_page_back 4096 _ _ _ H1 H2)
    as (s' & Hs' & _ & _ & _ & _ & Hd & _).
  exists s'. split; [exact Hs'|]. apply Hd. vm_compute. reflexivity.
Defined.

Lemma fetch_miss_reads_page_in_witness :
  in_range (run1 []) ∧ page_table_ (run1 []) !! 5 = None
  ∧ PickVictimFrame 4096 (run1 [])
    = (Some 0%nat, (PickVictimFrame 4096 (run1 [])).2)
  ∧ ∃ s', FetchPageImpl 4096 (run1 []) 5 = (Some 0%nat, s').
Proof.
  assert (H1 : in_range (run1 [])) by apply reachable_in_range.
  assert (H2 : page_table_ (run1 []) !! 5 = None) by (vm_compute; reflexivity).
  assert (H3 : PickVictimFrame 4096 (run1 [])
               = (Some 0%nat, (PickVictimFrame 4096 (run1 [])).2))
    by (vm_compute; reflexivity).
  split; [exact H1|]. split; [exact H2|]. split; [exact H3|].
  destruct (fetch_miss_reads_page_in 4096 _ _ _ _ H1 H2 H3) as (s' & Hs' & _).
  by exists s'.
Defined.

Lemma new_page_installs_fresh_page_witness :
  in_range (run1 [])
  ∧ PickVictimFrame 4096 (run1 [])
    = (Some 0%nat, (PickVictimFrame 4096 (run1 [])).2)
  ∧ AllPagesPinned 4096 (run1 []) = false
  ∧ ∃ s', NewPageImpl 4096 (run1 []) = (Some (0, 0%nat), s').
Proof.
  assert (H1 : in_range (run1 [])) by apply reachable_in_range.
  assert (H3 : PickVictimFrame 4096 (run1 [])
               = (Some 0%nat, (PickVictimFrame 4096 (run1 [])).2))
    by (vm_compute; reflexivity).
  assert (H4 : AllPagesPinned 4096 (run1 []) = false) by (vm_compute; reflexivity).
  split; [exact H1|]. split; [exact H3|]. split; [exact H4|].
  destruct (proj2 (new_page_installs_fresh_page 4096 _ _ _ H1 H3) H4) as (s' & Hs' & _).
  by exists s'.
Defined.

Lemma new_page_refused_when_all_pinned_witness :
  in_range (run1 [NewPage])
  ∧ Forall (λ pg, 0 < pin_count_ pg) (pages_ (run1 [NewPage]))
  ∧ NewPageImpl 4096 (run1 [NewPage]) = (None, run1 [NewPage]).
Proof.
  assert (H1 : in_range (run1 [NewPage])) by apply reachable_in_range.
  assert (H2 : Forall (λ pg, 0 < pin_count_ pg) (pages_ (run1 [NewPage])))
    by (vm_compute; repeat constructor).
  split; [exact H1|]. split; [exact H2|].
  exact (proj2 (new_page_refused_when_all_pinned 4096 _ H1) H2).
Defined.

Lemma unpin_keeps_dirty_flag_witness :
  in_range (run1 [NewPage; Unpin 0 true])
  ∧ page_table_ (run1 [NewPage; Unpin 0 true]) !! 0 = Some 0%nat
  ∧ ∃ s', UnpinPageImpl 4096 (run1 [NewPage; Unpin 0 true]) 0 false = (true, s')
          ∧ is_dirty_ (page_at s' 0) = true.
Proof.
  assert (H1 : in_range (run1 [NewPage; Unpin 0 true])) by apply reachable_in_range.
  assert (H2 : page_table_ (run1 [NewPage; Unpin 0 true]) !! 0 = Some 0%nat)
    by (vm_compute; reflexivity).
  split; [exact H1|]. split; [exact H2|].
  destruct (unpin_keeps_dirty_flag 4096 _ _ false _ H1 H2) as (s' & Hs' & Hpg & _).
  exists s'. split; [exact Hs'|]. rewrite Hpg. vm_compute. reflexivity.
Defined.

Lemma no_frame_available_witness :
  free_list_ (run1 [NewPage]) = []
  ∧ LRU.frame_list_ (replacer_ (run1 [NewPage])) = []
  ∧ page_table_ (run1 [NewPage]) !! 9 = None
  ∧ FetchPageImpl 4096 (run1 [NewPage]) 9 = (None, run1 [NewPage]).
Proof.
  assert (H1 : free_list_ (run1 [NewPage]) = []) by (vm_compute; reflexivity).
  assert (H2 : LRU.frame_list_ (replacer_ (run1 [NewPage])) = [])
    by (vm_compute; reflexivity).
  assert (H3 : page_table_ (run1 [NewPage]) !! 9 = None) by (vm_compute; reflexivity).
  split; [exact H1|]. split; [exact H2|]. split; [exact H3|].
  exact (proj1 (no_frame_available 4096 _ 9 H1 H2) H3).
Defined.




(** Why the contract of X14 and X15 is needed: a [Fetch] of page 0 before
    the page store has handed that identifier out, then a [NewPage], which
    receives identifier 0 and maps it to frame 1; frame 0, still pinned, is
    then neither on the free list nor in the page table. *)
Example fetch_of_unallocated_page_orphans_frame :
  well_addressed 4096 (new 4096 2 empty_disk) [Fetch 0; NewPage] = false
  ∧ free_list_ (run2 [Fetch 0; NewPage]) = []
  ∧ page_table_ (run2 [Fetch 0; NewPage]) = {[ 0 := 1%nat ]}
  ∧ pin_count_ (page_at (run2 [Fetch 0; NewPage]) 0) = 1.
Proof. vm_compute. repeat split. Qed.

End BpmFacts.
